(** * Order tracker: the order collection view-model

    A shallow embedding of the order logic of the [App] component
    (filter, sort, type partition, selection set, batch delete, CSV and
    PDF export) and of the store call [deleteOrders] it relies on,
    followed by the summary request, the account handlers and the form
    for new orders with the service functions behind them.

    Conventions of the embedding:
    - a JavaScript string is a [string]: the sequence of bytes of its
      UTF-8 encoding.  The characters the code tests for (comma, double
      quote, line feed, the ASCII digits and letters) are single bytes
      that never occur inside a multi-byte sequence;
    - a [Set<string>] is a [gset string]; [has], [add] and [delete] are
      membership, union with a singleton and difference with a singleton;
    - an optional field ([ref?: string]) is an [option string];
    - the string-literal unions of [types.ts] are inductive types;
    - React state is a record; an event handler is a function from the
      state it was rendered with to the state after its updates;
    - the functions of the JavaScript runtime whose result depends on the
      locale data, on the character database, on the date parser or on
      the engine are fields of the class [JsRuntime], together with what
      the language standard says of them. *)

From Stdlib Require Import ZArith Ascii List Permutation Sorted DecimalString.
From Stdlib Require String.
From stdpp Require Import gmap strings list sorting.

Local Open Scope Z_scope.

#[local] Set Warnings "-clear-no-such-hyp".

(** String concatenation unfolds under [simpl] on a known first argument. *)
#[local] Arguments String.append !_ _ / : simpl nomatch.

(* ================================================================== *)
(** ** JavaScript strings *)
(* ================================================================== *)

Definition quoteChar : ascii := "034"%char.
Definition commaChar : ascii := ","%char.
Definition lfChar : ascii := "010"%char.
Definition crChar : ascii := "013"%char.

Definition str1 (c : ascii) : string := String c EmptyString.

(** [s.startsWith(p)] *)
Fixpoint startsWith (s p : string) {struct p} : bool :=
  match p with
  | EmptyString => true
  | String c p' =>
      match s with
      | EmptyString => false
      | String d s' => Ascii.eqb d c && startsWith s' p'
      end
  end.

(** [s.includes(p)] *)
Fixpoint includes (s p : string) : bool :=
  startsWith s p ||
  match s with
  | EmptyString => false
  | String _ s' => includes s' p
  end.

(** [s.includes(c)] for a one-character pattern. *)
Fixpoint includesChar (s : string) (c : ascii) : bool :=
  match s with
  | EmptyString => false
  | String d s' => Ascii.eqb d c || includesChar s' c
  end.

(** A text of ASCII characters only: every byte is below 128. *)
Fixpoint isAscii (s : string) : bool :=
  match s with
  | EmptyString => true
  | String c s' => (N_of_ascii c <? 128)%N && isAscii s'
  end.

(** The lower-case mapping restricted to ASCII: the letters [A]-[Z] move
    to [a]-[z] and every other byte is kept.  [s.toLowerCase()] itself
    maps every cased letter of the character database and is a field of
    [JsRuntime] below; on a text of ASCII characters it is this function. *)
Definition asciiLowerChar (c : ascii) : ascii :=
  let n := N_of_ascii c in
  if ((65 <=? n) && (n <=? 90))%N then ascii_of_N (n + 32) else c.

Fixpoint asciiLowerCase (s : string) : string :=
  match s with
  | EmptyString => EmptyString
  | String c s' => String (asciiLowerChar c) (asciiLowerCase s')
  end.

(** [xs.join(sep)] *)
Fixpoint join (sep : string) (xs : list string) : string :=
  match xs with
  | [] => EmptyString
  | [x] => x
  | x :: xs' => x +:+ sep +:+ join sep xs'
  end.

(** Truthiness of an optional string: [undefined] and [''] are falsy. *)
Definition truthy (x : option string) : bool :=
  match x with
  | Some s => negb (String.eqb s "")
  | None => false
  end.

(** [x || d] for an optional string [x] and a string [d]. *)
Definition orElse (x : option string) (d : string) : string :=
  match x with
  | Some s => if String.eqb s "" then d else s
  | None => d
  end.

(* ================================================================== *)
(** ** Data model ([types.ts]) *)
(* ================================================================== *)

Inductive UserRole := admin | guest.
Inductive OrderType := income | expense.
Inductive OrderStatus := pending | completed.

Record User := { uid : string; email : string; role : UserRole }.

Record Order := {
  id : string;
  name : string;
  ref : option string;
  date : string;
  type : OrderType;
  status : OrderStatus;
  addedBy : string
}.

Definition OrderType_eqb (a b : OrderType) : bool :=
  match a, b with
  | income, income | expense, expense => true
  | _, _ => false
  end.

Definition OrderStatus_eqb (a b : OrderStatus) : bool :=
  match a, b with
  | pending, pending | completed, completed => true
  | _, _ => false
  end.

Definition UserRole_eqb (a b : UserRole) : bool :=
  match a, b with
  | admin, admin | guest, guest => true
  | _, _ => false
  end.

Inductive ToastType := success | error.

Record Toast := { message : string; toastType : ToastType }.

(** The confirmation dialog.  Its [onConfirm] closure reads the
    [selectedOrders] of the render that opened the dialog; that captured
    set is the field [capturedSelection]. *)
Record ConfirmModalProps := {
  title : string;
  modalMessage : string;
  confirmText : string;
  capturedSelection : gset string
}.

(** The state hooks of [App] that the order logic reads or writes. *)
Record AppState := {
  currentUser : option User;
  orders : list Order;
  toast : option Toast;
  searchTerm : string;
  dateFilter : string;
  statusFilter : option OrderStatus;   (* [None] is [''] *)
  sortOption : string;
  confirmModal : option ConfirmModalProps;
  selectedOrders : gset string
}.

Definition setOrders (os : list Order) (st : AppState) : AppState :=
  {| currentUser := currentUser st; orders := os; toast := toast st;
     searchTerm := searchTerm st; dateFilter := dateFilter st;
     statusFilter := statusFilter st; sortOption := sortOption st;
     confirmModal := confirmModal st; selectedOrders := selectedOrders st |}.

Definition setToast (t : option Toast) (st : AppState) : AppState :=
  {| currentUser := currentUser st; orders := orders st; toast := t;
     searchTerm := searchTerm st; dateFilter := dateFilter st;
     statusFilter := statusFilter st; sortOption := sortOption st;
     confirmModal := confirmModal st; selectedOrders := selectedOrders st |}.

Definition setConfirmModal (m : option ConfirmModalProps) (st : AppState) : AppState :=
  {| currentUser := currentUser st; orders := orders st; toast := toast st;
     searchTerm := searchTerm st; dateFilter := dateFilter st;
     statusFilter := statusFilter st; sortOption := sortOption st;
     confirmModal := m; selectedOrders := selectedOrders st |}.

Definition setSelectedOrders (s : gset string) (st : AppState) : AppState :=
  {| currentUser := currentUser st; orders := orders st; toast := toast st;
     searchTerm := searchTerm st; dateFilter := dateFilter st;
     statusFilter := statusFilter st; sortOption := sortOption st;
     confirmModal := confirmModal st; selectedOrders := s |}.

(* ================================================================== *)
(** ** The JavaScript runtime *)
(* ================================================================== *)

(** The stable sort by a comparator: the order that the language
    standard requires of [Array.prototype.sort] when the comparator is
    consistent.  The elements are inserted from the right end, so [x]
    stood before every element of [l] in the input; it goes behind [y]
    only when [cmp x y] is positive, and elements that compare as equal
    keep their input order. *)
Fixpoint insertBy {A} (cmp : A → A → Z) (x : A) (l : list A) : list A :=
  match l with
  | [] => [x]
  | y :: l' => if cmp x y <=? 0 then x :: y :: l' else y :: insertBy cmp x l'
  end.

Definition sortBy {A} (cmp : A → A → Z) (l : list A) : list A :=
  foldr (insertBy cmp) [] l.

(** A consistent comparator for the elements of [l], in the words of the
    language standard: every element compares as equal to itself;
    comparing as equal is symmetric and transitive; comparing as smaller
    and comparing as greater are transitive.  A comparator that answers
    [NaN], read as [+0], for some pairs only is not consistent. *)
Definition ConsistentOn {A} (cmp : A → A → Z) (l : list A) : Prop :=
  (∀ a, a ∈ l → cmp a a = 0)
  ∧ (∀ a b, a ∈ l → b ∈ l → cmp a b = 0 → cmp b a = 0)
  ∧ (∀ a b c, a ∈ l → b ∈ l → c ∈ l → cmp a b = 0 → cmp b c = 0 → cmp a c = 0)
  ∧ (∀ a b c, a ∈ l → b ∈ l → c ∈ l → cmp a b < 0 → cmp b c < 0 → cmp a c < 0)
  ∧ (∀ a b c, a ∈ l → b ∈ l → c ∈ l → cmp a b > 0 → cmp b c > 0 → cmp a c > 0).

(** Functions of the runtime that depend on its date parser, on its
    locale data, on its character database or on the engine.  [None] in
    [getTime] is [NaN] (an invalid date); [None] in [toISODate] is the
    [RangeError] that [toISOString] throws on an invalid date.

    [sort] is [Array.prototype.sort] with a comparator, on an array
    without holes and without [undefined].  The engine chooses the
    algorithm; what is known of the result is:
    - it holds the elements of the array, each as often as the array;
    - for a comparator that is consistent on the elements it is the
      stable sort, [sortBy]; for any other comparator the order is the
      engine's own;
    - the engine looks at the elements through the comparator only, so
      the sort commutes with a change of the elements that keeps every
      answer of the comparator. *)
Class JsRuntime := {
  (** [new Date(s).getTime()] *)
  getTime : string → option Z;
  (** [a.localeCompare(b, 'ar')] *)
  localeCompareAr : string → string → Z;
  (** [a.localeCompare(b, undefined, { numeric: true })] *)
  localeCompareNumeric : string → string → Z;
  (** [new Date(s).toLocaleDateString('ar-EG')] *)
  toLocaleDateStringArEG : string → string;
  (** [new Date(s).toISOString().split('T')[0]] *)
  toISODate : string → option string;
  (** [new Date().toISOString().split('T')[0]], the day of the export *)
  todayISO : string;
  (** [window.btoa] of the binary string built from the bytes of a buffer *)
  btoa : string → string;
  (** [s.toLowerCase()] *)
  toLowerCase : string → string;
  (** [l.sort(comparefn)] *)
  sort : ∀ {A : Type}, (A → A → Z) → list A → list A;
  toLowerCase_ascii (s : string) :
    isAscii s = true → toLowerCase s = asciiLowerCase s;
  sort_perm {A} (cmp : A → A → Z) (l : list A) :
    sort cmp l ≡ₚ l;
  sort_consistent {A} (cmp : A → A → Z) (l : list A) :
    ConsistentOn cmp l → sort cmp l = sortBy cmp l;
  sort_natural {A B} (f : A → B) (cmpA : A → A → Z) (cmpB : B → B → Z)
      (l : list A) :
    (∀ a b, cmpB (f a) (f b) = cmpA a b) →
    sort cmpB (map f l) = map f (sort cmpA l)
}.

(** Subtraction of two numbers that may be [NaN], then the sort's reading
    of the comparator result ([NaN] counts as [+0]). *)
Definition subOrNaN (x y : option Z) : option Z :=
  match x, y with
  | Some a, Some b => Some (a - b)
  | _, _ => None
  end.

Definition nanToZero (x : option Z) : Z :=
  match x with Some v => v | None => 0 end.

(* ================================================================== *)
(** ** Effects of the event handlers *)
(* ================================================================== *)

(** How a statement or an awaited promise completes: normally with a
    value, or by throwing (a rejected promise throws at its [await]).
    The thrown value is represented by its message. *)
Inductive Completion (A : Type) :=
| Normal (a : A)
| Throw (e : string).
Arguments Normal {A} a.
Arguments Throw {A} e.

(** The document handed to [doc.save]: the font added to the virtual
    file system, the title, and the head and body of the table. *)
Record PdfDoc := {
  vfsFont : string;
  titleText : string;
  tableHead : list (list string);
  tableBody : list (list string)
}.

(** What a handler does that is visible outside the component state. *)
Inductive Effect :=
| ShowToast (t : Toast)                        (* [showToast] *)
| BatchCommit (ids : list string)              (* [batch.commit()] *)
| Download (filename content : string)         (* [link.click()] on the blob *)
| SavePdf (filename : string) (doc : PdfDoc)   (* [doc.save] *)
| ConsoleError (label : string).               (* [console.error] *)

Record World := { app : AppState; trace : list Effect }.

(** A handler body: it reads and updates the component state, appends to
    the trace of effects, and completes normally or throws. *)
Definition Eff (A : Type) : Type := World → Completion A * World.

#[global] Instance Eff_ret : MRet Eff := λ A a w, (Normal a, w).

#[global] Instance Eff_bind : MBind Eff := λ A B f m w,
  match m w with
  | (Normal a, w') => f a w'
  | (Throw e, w') => (Throw e, w')
  end.

Definition throw {A} (e : string) : Eff A := λ w, (Throw e, w).

(** [try { body } catch (error) { handler }] *)
Definition tryCatch {A} (body : Eff A) (handler : string → Eff A) : Eff A := λ w,
  match body w with
  | (Normal a, w') => (Normal a, w')
  | (Throw e, w') => handler e w'
  end.

Definition setState (f : AppState → AppState) : Eff unit := λ w,
  (Normal (), {| app := f (app w); trace := trace w |}).

Definition emit (e : Effect) : Eff unit := λ w,
  (Normal (), {| app := app w; trace := trace w ++ [e] |}).

(** Run a handler from a rendered state, with an empty trace. *)
Definition runHandler {A} (h : Eff A) (st : AppState) : Completion A * World :=
  h {| app := st; trace := [] |}.

Fixpoint mapEff {A B} (f : A → Eff B) (l : list A) : Eff (list B) :=
  match l with
  | [] => mret []
  | x :: l' => y ← f x; ys ← mapEff f l'; mret (y :: ys)
  end.

(** The answer of [fetch(url)]: the promise rejects, or it resolves to a
    response with its [ok] flag, its [statusText] and the completion of
    [arrayBuffer()]. *)
Inductive FetchResult :=
| FetchRejected (reason : string)
| FetchResponse (ok : bool) (statusText : string) (arrayBuffer : Completion string).

(** The services reached over the network: the outcome of committing a
    delete batch ([None]: the promise resolves; [Some e]: it rejects with
    [e]) and the answer to a [fetch]. *)
Class Network := {
  batchCommit : list string → option string;
  fetch : string → FetchResult
}.

(* ================================================================== *)
(** ** Projection pipeline: filter, sort, partition *)
(* ================================================================== *)

Section Model.
Context `{JsRuntime} `{Network}.

(** The predicate of [orders.filter(...)] in [filteredAndSortedOrders]. *)
Definition matchesOrder (st : AppState) (order : Order) : bool :=
  let lowerSearchTerm := toLowerCase (searchTerm st) in
  let matchesSearch :=
    includes (toLowerCase (name order)) lowerSearchTerm ||
    match ref order with
    | Some r => truthy (Some r) && includes (toLowerCase r) lowerSearchTerm
    | None => false
    end in
  let matchesDate :=
    String.eqb (dateFilter st) "" || startsWith (date order) (dateFilter st) in
  let matchesStatus :=
    match statusFilter st with
    | None => true
    | Some s => OrderStatus_eqb (status order) s
    end in
  matchesSearch && matchesDate && matchesStatus.

(** The comparator of [filtered.sort(...)]: the [switch] on [sortOption]. *)
Definition compareOrders (sortOption : string) (a b : Order) : Z :=
  if String.eqb sortOption "date-asc" then
    nanToZero (subOrNaN (getTime (date a)) (getTime (date b)))
  else if String.eqb sortOption "name-asc" then
    localeCompareAr (name a) (name b)
  else if String.eqb sortOption "name-desc" then
    localeCompareAr (name b) (name a)
  else if String.eqb sortOption "ref-asc" then
    localeCompareNumeric (orElse (ref a) "") (orElse (ref b) "")
  else if String.eqb sortOption "ref-desc" then
    localeCompareNumeric (orElse (ref b) "") (orElse (ref a) "")
  else
    nanToZero (subOrNaN (getTime (date b)) (getTime (date a))).

Definition filteredOrders (st : AppState) : list Order :=
  List.filter (matchesOrder st) (orders st).

Definition filteredAndSortedOrders (st : AppState) : list Order :=
  sort (compareOrders (sortOption st)) (filteredOrders st).

Definition incomeOrders (st : AppState) : list Order :=
  List.filter (λ o, OrderType_eqb (type o) income) (filteredAndSortedOrders st).

Definition expenseOrders (st : AppState) : list Order :=
  List.filter (λ o, OrderType_eqb (type o) expense) (filteredAndSortedOrders st).

(* ---------------------------------------------------------------- *)
(** *** Selection tracker *)

(** [handleSelectOrder]: copy the set, then delete the id when it is
    there and add it otherwise. *)
Definition handleSelectOrder (orderId : string) (st : AppState) : AppState :=
  let prev := selectedOrders st in
  let newSet :=
    if bool_decide (orderId ∈ prev) then prev ∖ {[orderId]}
    else prev ∪ {[orderId]} in
  setSelectedOrders newSet st.

(** The orders of the table whose header box was clicked. *)
Definition ordersToSelect (ty : OrderType) (st : AppState) : list Order :=
  match ty with income => incomeOrders st | expense => expenseOrders st end.

(** [handleSelectAll]: the test [allVisibleSelected] reads the rendered
    [selectedOrders]; the updater then deletes or adds the id of every
    order of the table, one after the other.  One event is handled per
    render, so the updater's [prev] is the rendered set. *)
Definition handleSelectAll (ty : OrderType) (st : AppState) : AppState :=
  let allVisibleSelected :=
    forallb (λ o, bool_decide (id o ∈ selectedOrders st)) (ordersToSelect ty st) in
  let prev := selectedOrders st in
  let newSet :=
    if allVisibleSelected
    then foldl (λ acc o, acc ∖ {[id o]}) prev (ordersToSelect ty st)
    else foldl (λ acc o, acc ∪ {[id o]}) prev (ordersToSelect ty st) in
  setSelectedOrders newSet st.

(* ---------------------------------------------------------------- *)
(** *** Notifications and batch delete *)

Definition showToast (msg : string) (ty : ToastType) : Eff unit :=
  let t := {| message := msg; toastType := ty |} in
  setState (setToast (Some t)) ;; emit (ShowToast t).

(** [firebaseService.deleteOrders]: one batch with a delete per id,
    committed at the end; a failed commit rejects the promise. *)
Definition deleteOrders (orderIds : list string) : Eff unit :=
  emit (BatchCommit orderIds) ;;
  match batchCommit orderIds with
  | None => mret ()
  | Some e => throw e
  end.

(** [String(n)] for a natural number. *)
Definition stringOfNat (n : nat) : string :=
  NilEmpty.string_of_uint (Nat.to_uint n).

(** The [onConfirm] closure of the dialog opened by
    [handleDeleteSelected].  [Array.from] lists the captured set; the
    order of the list plays no part in what follows. *)
Definition onConfirm (m : ConfirmModalProps) : Eff unit :=
  deleteOrders (elements (capturedSelection m)) ;;
  setState (setSelectedOrders ∅) ;;
  showToast "تم حذف الأوردرات المحددة بنجاح." success ;;
  setState (setConfirmModal None).

Definition onCancel : Eff unit := setState (setConfirmModal None).

Definition handleDeleteSelected (st : AppState) : AppState :=
  if (size (selectedOrders st) =? 0)%nat then st
  else
    setConfirmModal
      (Some {| title := "تأكيد الحذف";
               modalMessage :=
                 "هل أنت متأكد من رغبتك في حذف " +:+
                 stringOfNat (size (selectedOrders st)) +:+
                 " أوردر(ات)؟ لا يمكن التراجع عن هذا الإجراء.";
               confirmText := "نعم، احذف";
               capturedSelection := selectedOrders st |})
      st.

(** The click on the confirm button of the open dialog. *)
Definition confirmDelete (st : AppState) : Completion unit * World :=
  match confirmModal st with
  | Some m => runHandler (onConfirm m) st
  | None => runHandler (mret ()) st
  end.

(** The orders subscription: every snapshot replaces the record set. *)
Definition onOrdersSnapshot (snapshot : list Order) (st : AppState) : AppState :=
  setOrders snapshot st.

(* ---------------------------------------------------------------- *)
(** *** What the page shows of the selection and of a reference *)

(** One ASCII digit as the UTF-8 bytes of its Arabic-Indic digit. *)
Definition arabicDigit (c : ascii) : string :=
  String (ascii_of_N 217) (str1 (ascii_of_N (N_of_ascii c + 112))).

Definition isDigit (c : ascii) : bool :=
  let n := N_of_ascii c in ((48 <=? n) && (n <=? 57))%N.

(** [toArabicNumerals] on a string. *)
Fixpoint toArabicNumerals (str : string) : string :=
  match str with
  | EmptyString => EmptyString
  | String c s' =>
      if isDigit c then arabicDigit c +:+ toArabicNumerals s'
      else String c (toArabicNumerals s')
  end.

Definition isAdmin (st : AppState) : bool :=
  match currentUser st with
  | Some u => UserRole_eqb (role u) admin
  | None => false
  end.

(** The number the page shows in the delete button:
    [selectedOrders.size], shown to an administrator when positive. *)
Definition displayedSelectionCount (st : AppState) : option nat :=
  if isAdmin st && (0 <? size (selectedOrders st))%nat
  then Some (size (selectedOrders st))
  else None.

(** The text of the delete button. *)
Definition deleteButtonLabel (st : AppState) : option string :=
  match displayedSelectionCount st with
  | Some n => Some ("مسح المحدد (" +:+ toArabicNumerals (stringOfNat n) +:+ ")")
  | None => None
  end.

(** The reference cell of a row of [OrderTable]. *)
Definition tableRefCell (order : Order) : string :=
  toArabicNumerals (orElse (ref order) "N/A").

(* ---------------------------------------------------------------- *)
(** *** CSV export *)

Fixpoint doubleQuotes (str : string) : string :=
  match str with
  | EmptyString => EmptyString
  | String c s' =>
      if Ascii.eqb c quoteChar
      then String quoteChar (String quoteChar (doubleQuotes s'))
      else String c (doubleQuotes s')
  end.

Definition escapeCsvField (field : option string) : string :=
  match field with
  | None => ""
  | Some str =>
      if includesChar str commaChar || includesChar str quoteChar
         || includesChar str lfChar
      then str1 quoteChar +:+ doubleQuotes str +:+ str1 quoteChar
      else str
  end.

Definition typeLabel (t : OrderType) : string :=
  match t with income => "استلام" | expense => "صرف" end.

Definition statusLabel (s : OrderStatus) : string :=
  match s with pending => "قيد الانتظار" | completed => "مكتمل" end.

Definition csvHeaders : list string :=
  ["النوع"; "الاسم"; "الرقم المرجعي"; "التاريخ"; "الحالة"; "أضيف بواسطة"].

(** The fields of one record, before escaping. *)
Definition csvFields (o : Order) : list string :=
  [typeLabel (type o); name o; orElse (ref o) "";
   toLocaleDateStringArEG (date o); statusLabel (status o); addedBy o].

Definition csvRow (o : Order) : list string :=
  map (λ f, escapeCsvField (Some f)) (csvFields o).

(** The byte-order mark U+FEFF. *)
Definition bom : string :=
  String (ascii_of_N 239) (String (ascii_of_N 187) (str1 (ascii_of_N 191))).

Definition crlf : string := String crChar (str1 lfChar).

Definition csvLine (row : list string) : string := join "," row +:+ crlf.

(** The text of the exported file for a list of records. *)
Definition csvContent (rows : list Order) : string :=
  foldl (λ acc rowArray, acc +:+ csvLine rowArray)
        (bom +:+ join "," csvHeaders +:+ crlf)
        (map csvRow rows).

(** [handleExportCSV]: the file goes to the browser through a link that
    is clicked, then the success message is shown. *)
Definition handleExportCSV : Eff unit := λ w,
  let rows := filteredAndSortedOrders (app w) in
  (emit (Download ("تقرير_الأوردرات_" +:+ todayISO +:+ ".csv") (csvContent rows)) ;;
   showToast "تم تصدير CSV بنجاح." success) w.

(* ---------------------------------------------------------------- *)
(** *** PDF export *)

Definition fontUrl : string :=
  "https://raw.githubusercontent.com/google/fonts/main/ofl/amiri/Amiri-Regular.ttf".

Definition pdfHead : list (list string) :=
  [["أضيف بواسطة"; "الحالة"; "التاريخ"; "الرقم المرجعي"; "الاسم"; "النوع"]].

(** One body row; [toISOString] throws on an invalid date. *)
Definition pdfRow (o : Order) : Eff (list string) :=
  match toISODate (date o) with
  | None => throw "RangeError: Invalid time value"
  | Some d =>
      mret [addedBy o; statusLabel (status o); d; orElse (ref o) "N/A";
            name o; typeLabel (type o)]
  end.

(** The font download: the [try] block up to [fontBase64]. *)
Definition fetchFontBase64 : Eff string :=
  match fetch fontUrl with
  | FetchRejected reason => throw reason
  | FetchResponse ok statusText arrayBuffer =>
      if negb ok then throw ("Failed to download font: " +:+ statusText)
      else
        match arrayBuffer with
        | Throw e => throw e
        | Normal fontBuffer => mret (btoa fontBuffer)
        end
  end.

(** [handleExportPDF]: the guard on the empty projection, the progress
    message, then the [try] block with the font download, the rows and
    the saved document, and the [catch] with its error message.  The
    projection is the one of the render that the handler belongs to.  The
    calls into the jsPDF library are taken to succeed; what they build is
    the [PdfDoc] handed to [doc.save]. *)
Definition handleExportPDF : Eff unit := λ w,
  let rows := filteredAndSortedOrders (app w) in
  (if (length rows =? 0)%nat then
     showToast "لا توجد بيانات لتصديرها." error
   else
     showToast "جاري تحضير ملف PDF..." success ;;
     tryCatch
       (fontBase64 ← fetchFontBase64;
        body ← mapEff pdfRow rows;
        emit (SavePdf ("تقرير_الأوردرات_" +:+ todayISO +:+ ".pdf")
                      {| vfsFont := fontBase64;
                         titleText := "تقرير الأوردرات";
                         tableHead := pdfHead;
                         tableBody := body |}) ;;
        showToast "تم تصدير PDF بنجاح." success)
       (λ _, emit (ConsoleError "Error exporting PDF:") ;;
             showToast "حدث خطأ أثناء تحميل الخط أو تصدير PDF." error)) w.

(* ---------------------------------------------------------------- *)
(** *** Summary request ([geminiService]) *)

(** The line of the prompt that describes one order. *)
Definition summaryLine (o : Order) : string :=
  "- النوع: " +:+ typeLabel (type o) +:+ ", الاسم: " +:+ name o +:+
  ", المرجع: " +:+ orElse (ref o) "لا يوجد" +:+
  ", الحالة: " +:+ statusLabel (status o) +:+
  ", التاريخ: " +:+ toLocaleDateStringArEG (date o).

End Model.

(* ================================================================== *)
(** ** Specification-side definitions *)
(* ================================================================== *)

(** [Interleave l1 l2 l]: [l] is a merge of [l1] and [l2]; every element
    of [l] comes from exactly one of them, in the order it has there. *)
Inductive Interleave {A} : list A → list A → list A → Prop :=
| Interleave_nil : Interleave [] [] []
| Interleave_left x l1 l2 l :
    Interleave l1 l2 l → Interleave (x :: l1) l2 (x :: l)
| Interleave_right x l1 l2 l :
    Interleave l1 l2 l → Interleave l1 (x :: l2) (x :: l).

(** A comparator that orders any two elements, transitively: enough for
    the stable sort to give a list in which every element stands before
    the elements that are not smaller. *)
Definition ConsistentComparator {A} (cmp : A → A → Z) : Prop :=
  (∀ a b, cmp a b <= 0 ∨ cmp b a <= 0)
  ∧ (∀ a b c, cmp a b <= 0 → cmp b c <= 0 → cmp a c <= 0).






(** [p] occurs in [s] up to letter case: once both are written in small
    letters, as the runtime writes them, the term is a part of the text. *)
Definition ContainsIgnoreCase `{JsRuntime} (s p : string) : Prop :=
  ∃ pre post, toLowerCase s = pre +:+ toLowerCase p +:+ post.

(** The filter of the specification: the conjunction of the text, date
    and status predicates. *)
Definition TextMatch `{JsRuntime} (st : AppState) (o : Order) : Prop :=
  searchTerm st = ""
  ∨ ContainsIgnoreCase (name o) (searchTerm st)
  ∨ (∃ r, ref o = Some r ∧ ContainsIgnoreCase r (searchTerm st)).

Definition DateMatch (st : AppState) (o : Order) : Prop :=
  dateFilter st = "" ∨ ∃ rest, date o = dateFilter st +:+ rest.

Definition StatusMatch (st : AppState) (o : Order) : Prop :=
  statusFilter st = None ∨ statusFilter st = Some (status o).

Definition SpecMatch `{JsRuntime} (st : AppState) (o : Order) : Prop :=
  TextMatch st o ∧ DateMatch st o ∧ StatusMatch st o.

(** An order with another reference, and the order that has no reference
    where it had the empty one. *)
Definition withRef (r : option string) (o : Order) : Order :=
  {| id := id o; name := name o; ref := r; date := date o; type := type o;
     status := status o; addedBy := addedBy o |}.

Definition eraseEmptyRef (o : Order) : Order :=
  if truthy (ref o) then o else withRef None o.

(** The ids of a list of orders, and the selected ids that are still in
    the record set. *)
Definition orderIds (os : list Order) : gset string :=
  list_to_set (map id os).

Definition presentSelection (st : AppState) : gset string :=
  selectedOrders st ∩ orderIds (orders st).

(** The notifications of a trace, by kind, and the documents saved. *)
Definition toastsOf (ty : ToastType) (tr : list Effect) : list Toast :=
  omap (λ e, match e with
             | ShowToast t =>
                 match ty, toastType t with
                 | success, success | error, error => Some t
                 | _, _ => None
                 end
             | _ => None
             end) tr.

Definition savedDocuments (tr : list Effect) : list (string * PdfDoc) :=
  omap (λ e, match e with SavePdf f d => Some (f, d) | _ => None end) tr.

(** The font cannot be obtained: the request is rejected, the server
    answers with a status that is not ok, or the body cannot be read. *)
Inductive FontFetchFails : FetchResult → Prop :=
| FontFetchFails_rejected reason :
    FontFetchFails (FetchRejected reason)
| FontFetchFails_status statusText body :
    FontFetchFails (FetchResponse false statusText body)
| FontFetchFails_body statusText e :
    FontFetchFails (FetchResponse true statusText (Throw e)).

(* ------------------------------------------------------------------ *)
(** *** A reader of comma-separated values (RFC 4180) *)





(** A field that [escapeCsvField] wraps in quotes. *)
Definition needsQuotes (f : string) : bool :=
  includesChar f commaChar || includesChar f quoteChar || includesChar f lfChar.



(* ------------------------------------------------------------------ *)
(** *** Numeric-aware comparison *)

(** Modelled from the spec: the collation of the runtime behind
    [localeCompare(_, undefined, { numeric: true })] is not part of the
    sources.  The model follows the words "embedded digit runs compare by
    numeric value, not lexicographically": a string is cut into its
    maximal runs of ASCII digits and its other bytes; a run counts by its
    value, another byte by its code, and a run stands where the digits
    stand among the codes. *)
Inductive Segment := Chr (c : ascii) | Num (n : N).

Definition digitValue (c : ascii) : N := (N_of_ascii c - 48)%N.

Definition flushRun (run : option N) : list Segment :=
  match run with Some n => [Num n] | None => [] end.

Fixpoint segmentsFrom (run : option N) (s : string) : list Segment :=
  match s with
  | EmptyString => flushRun run
  | String c s' =>
      if isDigit c
      then segmentsFrom (Some (10 * default 0%N run + digitValue c)%N) s'
      else flushRun run ++ Chr c :: segmentsFrom None s'
  end.

Definition segments (s : string) : list Segment := segmentsFrom None s.

Definition segmentKey (t : Segment) : list N :=
  match t with
  | Chr c => [N_of_ascii c; 0%N]
  | Num n => [48%N; n]
  end.

Definition numericKey (s : string) : list N :=
  concat (map segmentKey (segments s)).

Definition comparisonToZ (c : comparison) : Z :=
  match c with Lt => -1 | Eq => 0 | Gt => 1 end.

Definition numericCompare (a b : string) : Z :=
  comparisonToZ (list_compare N.compare (numericKey a) (numericKey b)).

(** The value of a string of digits. *)
Definition digitsValue (s : string) : N :=
  fold_left (λ acc c, (10 * acc + digitValue c)%N) (String.list_ascii_of_string s) 0%N.

Fixpoint allDigits (s : string) : bool :=
  match s with
  | EmptyString => true
  | String c s' => isDigit c && allDigits s'
  end.

(** The last byte of [s], when there is one, is not a digit. *)
Fixpoint endsOutsideRun (s : string) : bool :=
  match s with
  | EmptyString => true
  | String c EmptyString => negb (isDigit c)
  | String _ s' => endsOutsideRun s'
  end.

(** The first byte of [s], when there is one, is not a digit. *)
Definition startsOutsideRun (s : string) : bool :=
  match s with
  | EmptyString => true
  | String c _ => negb (isDigit c)
  end.

(* ------------------------------------------------------------------ *)
(** *** A runtime and a network for the examples *)

(** Dates [YYYY-MM-DD] count by year, month and day; any other text is an
    invalid date.  Names are collated by their bytes; letters outside
    ASCII have no other case; the engine sorts by insertion, whatever the
    comparator. *)
Definition exampleDayNumber (s : string) : option Z :=
  let y := String.substring 0 4 s in
  let m := String.substring 5 2 s in
  let d := String.substring 8 2 s in
  if (String.length s =? 10)%nat && allDigits y && allDigits m && allDigits d
     && String.eqb (String.substring 4 1 s) "-" && String.eqb (String.substring 7 1 s) "-"
  then Some (Z.of_N ((digitsValue y * 372 + digitsValue m * 31 + digitsValue d) * 86400000))
  else None.

Definition exampleRuntime : JsRuntime.
Proof.
  refine {|
    getTime := exampleDayNumber;
    localeCompareAr := λ a b, comparisonToZ (String.compare a b);
    localeCompareNumeric := numericCompare;
    toLocaleDateStringArEG := λ s, toArabicNumerals s;
    toISODate := λ s, match exampleDayNumber s with Some _ => Some s | None => None end;
    todayISO := "2024-03-15";
    btoa := λ s, s;
    toLowerCase := asciiLowerCase;
    sort := @sortBy
  |}.
  - reflexivity.
  - intros A cmp l. induction l as [|x l IH]; [done|].
    change (sortBy cmp (x :: l)) with (insertBy cmp x (sortBy cmp l)).
    rewrite <- IH at 2. generalize (sortBy cmp l) as l0.
    induction l0 as [|y l0 IH0]; simpl; [done|].
    destruct (cmp x y <=? 0); [done|]. rewrite IH0. apply Permutation_swap.
  - reflexivity.
  - intros A B f cmpA cmpB l Hcmp. induction l as [|x l IH]; [done|].
    change (insertBy cmpB (f x) (sortBy cmpB (map f l))
            = map f (insertBy cmpA x (sortBy cmpA l))).
    rewrite IH. generalize (sortBy cmpA l) as l0.
    induction l0 as [|y l0 IH0]; simpl; [done|].
    rewrite Hcmp. destruct (cmpA x y <=? 0); simpl; [done | by rewrite IH0].
Defined.

(** A network on which the batch commit is refused and the font server
    answers with an error status. *)
Definition failingNetwork : Network := {|
  batchCommit := λ _, Some "permission-denied";
  fetch := λ _, FetchResponse false "Not Found" (Normal "")
|}.

Definition mkOrder (i n : string) (r : option string) (d : string)
    (t : OrderType) (s : OrderStatus) : Order :=
  {| id := i; name := n; ref := r; date := d; type := t; status := s;
     addedBy := "admin@example.com" |}.

Definition initialState : AppState := {|
  currentUser := Some {| uid := "u1"; email := "admin@example.com"; role := admin |};
  orders := [];
  toast := None;
  searchTerm := "";
  dateFilter := "";
  statusFilter := None;
  sortOption := "date-desc";
  confirmModal := None;
  selectedOrders := ∅
|}.

Definition withSelection (S : gset string) (os : list Order) : AppState :=
  setSelectedOrders S (setOrders os initialState).

(** Two income orders on the page, the first of them selected. *)
Definition partialSelectionState : AppState :=
  withSelection {["a"]}
    [mkOrder "a" "Alice" (Some "10") "2024-03-01" income pending;
     mkOrder "b" "Bob" (Some "2") "2024-03-02" income pending].

(** The same page with both orders selected. *)
Definition fullSelectionState : AppState :=
  withSelection {["a"; "b"]} (orders partialSelectionState).

(** The selected order is gone from the record set. *)
Definition staleSelectionState : AppState :=
  withSelection {["a"]} [].


Definition setSortOption (opt : string) (st : AppState) : AppState :=
  {| currentUser := currentUser st; orders := orders st; toast := toast st;
     searchTerm := searchTerm st; dateFilter := dateFilter st;
     statusFilter := statusFilter st; sortOption := opt;
     confirmModal := confirmModal st; selectedOrders := selectedOrders st |}.

(** Three records with the references 10, 2 and 1, sorted by [ref-asc]. *)
Definition refSortState : AppState :=
  setSortOption "ref-asc"
    (setOrders
       [mkOrder "x" "Ten" (Some "10") "2024-03-01" income pending;
        mkOrder "y" "Two" (Some "2") "2024-03-02" expense pending;
        mkOrder "z" "One" (Some "1") "2024-03-03" income completed]
       initialState).

(** The sort key of an order under [ref-asc] and [ref-desc]. *)
Definition refKey (o : Order) : string := orElse (ref o) "".

(* ================================================================== *)
(** ** Further parts of the page *)
(* ================================================================== *)

(** The button that clears the filters: the four setters of its
    [onClick]. *)
Definition clearFilters (st : AppState) : AppState :=
  {| currentUser := currentUser st; orders := orders st; toast := toast st;
     searchTerm := ""; dateFilter := ""; statusFilter := None;
     sortOption := "date-desc";
     confirmModal := confirmModal st; selectedOrders := selectedOrders st |}.

(** [allVisibleSelected] of [OrderTable]: whether the box in the head of
    the table is checked. *)
Definition allVisibleSelected (orders : list Order) (selectedOrders : gset string) : bool :=
  (0 <? length orders)%nat
  && forallb (λ o, bool_decide (id o ∈ selectedOrders)) orders.

(** The field of an order that the comparator of a sort option reads. *)
Definition sortKey (opt : string) (o : Order) : string :=
  if String.eqb opt "date-asc" then date o
  else if String.eqb opt "name-asc" then name o
  else if String.eqb opt "name-desc" then name o
  else if String.eqb opt "ref-asc" then refKey o
  else if String.eqb opt "ref-desc" then refKey o
  else date o.

(** The time of the date of an order, an invalid date counting as 0. *)
Definition timeOf `{JsRuntime} (o : Order) : Z := nanToZero (getTime (date o)).

(** A network on which the batch commit succeeds and the font server
    answers with the font. *)
Definition workingNetwork : Network := {|
  batchCommit := λ _, None;
  fetch := λ _, FetchResponse true "OK" (Normal "font")
|}.

(** Three orders, two of them pending, nothing selected. *)
Definition threeOrdersState : AppState :=
  withSelection ∅
    [mkOrder "a" "Alice" (Some "10") "2024-03-01" income pending;
     mkOrder "b" "Bob" (Some "2") "2024-03-02" income completed;
     mkOrder "c" "Carl" None "2024-03-02" expense pending].

Definition setStatusFilter (f : option OrderStatus) (st : AppState) : AppState :=
  {| currentUser := currentUser st; orders := orders st; toast := toast st;
     searchTerm := searchTerm st; dateFilter := dateFilter st;
     statusFilter := f; sortOption := sortOption st;
     confirmModal := confirmModal st; selectedOrders := selectedOrders st |}.

(** The three orders under the status filter [pending]. *)
Definition pendingFilterState : AppState :=
  setStatusFilter (Some pending) threeOrdersState.

(** No byte of [s] is an ASCII digit. *)
Fixpoint allDigitFree (s : string) : bool :=
  match s with
  | EmptyString => true
  | String c s' => negb (isDigit c) && allDigitFree s'
  end.

(** The cells of the PDF row of an order whose date is valid. *)
Definition pdfCells `{JsRuntime} (o : Order) : list string :=
  [addedBy o; statusLabel (status o); default "" (toISODate (date o));
   orElse (ref o) "N/A"; name o; typeLabel (type o)].

(** An order with a date that the runtime of the examples cannot read,
    between two orders with valid dates. *)
Definition invalidDateState : AppState :=
  setOrders
    [mkOrder "a" "Alice" (Some "10") "2024-03-01" income pending;
     mkOrder "v" "Vera" (Some "3") "soon" expense pending;
     mkOrder "b" "Bob" (Some "2") "2024-03-02" income completed]
    initialState.

(* ================================================================== *)
(** ** Summary request ([geminiService], [handleGenerateSummary]) *)
(* ================================================================== *)

(** The environment of the summary service: the variable [API_KEY] and
    the answer of [ai.models.generateContent] for a model name and a
    prompt ([Throw] with the message of the error).  The constructor of
    the client is taken to succeed. *)
Class SummaryService := {
  apiKeyEnv : option string;
  generateContent : string → string → Completion string
}.

Definition newline : string := str1 lfChar.

(** The text of the prompt before and after the list of orders. *)
Definition promptBefore : string :=
  ""
  +:+ newline +:+ "        أنت محلل بيانات مالي. بناءً على قائمة الأوردرات التالية باللغة العربية، قم بإنشاء ملخص موجز وواضح. "
  +:+ newline +:+ "        يجب أن يتضمن الملخص:"
  +:+ newline +:+ "        1. إجمالي عدد الأوردرات."
  +:+ newline +:+ "        2. تفصيل عدد أوردرات الاستلام وعدد أوردرات الصرف."
  +:+ newline +:+ "        3. تفصيل عدد الأوردرات المكتملة وعدد الأوردرات قيد الانتظار."
  +:+ newline +:+ "        4. ملاحظة عامة أو رؤية سريعة حول النشاط إذا كان هناك شيء بارز (على سبيل المثال، " +:+ str1 quoteChar +:+ "نشاط مرتفع في أوردرات الصرف" +:+ str1 quoteChar +:+ ")."
  +:+ newline +:+ ""
  +:+ newline +:+ "        بيانات الأوردرات:"
  +:+ newline +:+ "        ".

Definition promptAfter : string :=
  ""
  +:+ newline +:+ ""
  +:+ newline +:+ "        الرجاء تقديم الملخص باللغة العربية."
  +:+ newline +:+ "        ".

Section Summary.
Context `{JsRuntime} `{SummaryService}.

(** [getApiKey]: the key, or an error when it is missing or empty. *)
Definition getApiKey : Completion string :=
  if truthy apiKeyEnv then Normal (orElse apiKeyEnv "")
  else Throw "API_KEY environment variable not set.".

(** The [catch] block of [generateOrderSummary]. *)
Definition summaryFallback (errorMessage : string) : string :=
  if includes errorMessage "API_KEY"
  then "خطأ: مفتاح Gemini API غير مهيأ. يرجى التأكد من إعداده بشكل صحيح."
  else "عذراً، حدث خطأ أثناء إنشاء الملخص. يرجى المحاولة مرة أخرى.".

Definition summaryPrompt (orders : list Order) : string :=
  promptBefore +:+ join newline (map summaryLine orders) +:+ promptAfter.

(** [generateOrderSummary]: the text the promise resolves to, and the
    prompts sent to the model on the way. *)
Definition generateOrderSummary (orders : list Order) : string * list string :=
  match getApiKey with
  | Throw e => (summaryFallback e, [])
  | Normal _ =>
      if (length orders =? 0)%nat then ("لا توجد أوردرات لتلخيصها.", [])
      else
        let prompt := summaryPrompt orders in
        match generateContent "gemini-2.5-flash" prompt with
        | Normal text => (text, [prompt])
        | Throw e => (summaryFallback e, [prompt])
        end
  end.

End Summary.

(** The two state hooks of the summary box. *)
Record SummaryState := { summary : string; isSummaryLoading : bool }.

Section SummaryHandler.
Context `{JsRuntime} `{SummaryService}.

(** [handleGenerateSummary] up to its [await]: the guard, the two
    setters, and the list handed to [generateOrderSummary] when a request
    starts. *)
Definition summaryClicked (st : AppState) (ss : SummaryState)
    : SummaryState * option (list Order) :=
  if isSummaryLoading ss then (ss, None)
  else ({| summary := ""; isSummaryLoading := true |},
        Some (filteredAndSortedOrders st)).

(** [handleGenerateSummary] after its [await]. *)
Definition summaryResolved (result : string) (ss : SummaryState) : SummaryState :=
  {| summary := result; isSummaryLoading := false |}.

(** A click and, when it starts a request, the answer to it. *)
Definition handleGenerateSummary (st : AppState) (ss : SummaryState)
    : SummaryState * list string :=
  match summaryClicked st ss with
  | (ss', None) => (ss', [])
  | (ss', Some orders) =>
      let '(result, prompts) := generateOrderSummary orders in
      (summaryResolved result ss', prompts)
  end.

End SummaryHandler.

(** A summary service with a key whose model answers with a fixed text,
    and one without a key. *)
Definition answeringSummaryService : SummaryService := {|
  apiKeyEnv := Some "key";
  generateContent := λ _ _, Normal "ملخص"
|}.

Definition keylessSummaryService : SummaryService := {|
  apiKeyEnv := None;
  generateContent := λ _ _, Normal "ملخص"
|}.

(* ================================================================== *)
(** ** Accounts ([firebaseService], [handleRegister], [handleLogin]) *)
(* ================================================================== *)

(** The address of the main administrator (a constant of [constants.ts],
    which is not among the sources) and the answers of the services
    behind [registerWithEmail] and [loginWithEmail]: the new account with
    its id and its address, the write of the user document, the sign-in.
    [Throw] carries the [code] of the error. *)
Class AuthService := {
  SUPER_ADMIN_EMAIL : string;
  createUserWithEmailAndPassword : string → string → Completion (string * string);
  setUserDoc : string → string → UserRole → Completion unit;
  signInWithEmailAndPassword : string → string → Completion unit
}.

Definition mapFirebaseError (errorCode : string) : string :=
  if String.eqb errorCode "auth/email-already-in-use" then
    "هذا البريد الإلكتروني مسجل بالفعل."
  else if String.eqb errorCode "auth/invalid-email" then
    "البريد الإلكتروني غير صالح."
  else if String.eqb errorCode "auth/weak-password" then
    "كلمة المرور ضعيفة جدًا."
  else if String.eqb errorCode "auth/user-not-found"
          || String.eqb errorCode "auth/wrong-password"
          || String.eqb errorCode "auth/invalid-credential" then
    "البريد الإلكتروني أو كلمة المرور غير صحيحة."
  else
    "حدث خطأ غير متوقع. يرجى المحاولة مرة أخرى.".

(** The calls that reach the services. *)
Inductive AuthCall :=
| CreateUser (address : string)
| SetUserDoc (userId address : string) (r : UserRole)
| SignIn (address : string).

Section Accounts.
Context `{AuthService}.

(** [registerWithEmail]: the [error] of the result and the calls made. *)
Definition registerWithEmail (address pass : string) : option string * list AuthCall :=
  match createUserWithEmailAndPassword address pass with
  | Throw code => (Some (mapFirebaseError code), [CreateUser address])
  | Normal (userId, userAddress) =>
      let r := if String.eqb address SUPER_ADMIN_EMAIL then admin else guest in
      match setUserDoc userId userAddress r with
      | Throw code =>
          (Some (mapFirebaseError code),
           [CreateUser address; SetUserDoc userId userAddress r])
      | Normal _ => (None, [CreateUser address; SetUserDoc userId userAddress r])
      end
  end.

(** [loginWithEmail] *)
Definition loginWithEmail (address pass : string) : option string * list AuthCall :=
  match signInWithEmailAndPassword address pass with
  | Throw code => (Some (mapFirebaseError code), [SignIn address])
  | Normal _ => (None, [SignIn address])
  end.

(** [handleRegister]: the state, the hook [isLoginView] and the calls. *)
Definition handleRegister (address pass : string) (st : AppState) (isLoginView : bool)
    : AppState * bool * list AuthCall :=
  let '(err, calls) := registerWithEmail address pass in
  if truthy err then
    (setToast (Some {| message := orElse err ""; toastType := error |}) st,
     isLoginView, calls)
  else
    (setToast (Some {| message := "تم إنشاء الحساب بنجاح! يمكنك الآن تسجيل الدخول.";
                       toastType := success |}) st,
     true, calls).

(** [handleLogin] *)
Definition handleLogin (address pass : string) (st : AppState)
    : AppState * list AuthCall :=
  let '(err, calls) := loginWithEmail address pass in
  if truthy err then
    (setToast (Some {| message := orElse err ""; toastType := error |}) st, calls)
  else
    (setToast (Some {| message := "مرحباً بعودتك!"; toastType := success |}) st, calls).

End Accounts.

Definition setCurrentUser (u : option User) (st : AppState) : AppState :=
  {| currentUser := u; orders := orders st; toast := toast st;
     searchTerm := searchTerm st; dateFilter := dateFilter st;
     statusFilter := statusFilter st; sortOption := sortOption st;
     confirmModal := confirmModal st; selectedOrders := selectedOrders st |}.

(** The callback that [App] hands to [onAuthStateChangedListener]: the
    state and the hook [isLoading] after it.  [fullUser] is the answer of
    [getUser] for a signed-in account, [None] when nobody is signed in. *)
Definition onAuthStateChanged (fullUser : option User) (st : AppState)
    : AppState * bool :=
  (setCurrentUser fullUser st, false).

(** The [Toast] element in what [App] returns.  The spinner returned
    while [isLoading] and the [AuthScreen] returned while [currentUser]
    is [null] hold none; the page of a signed-in user holds the one of
    the hook [toast], when that is not [null]. *)
Definition renderedToast (isLoading : bool) (st : AppState) : option Toast :=
  if isLoading then None
  else
    match currentUser st with
    | None => None
    | Some _ => toast st
    end.

(** An authentication service that knows one account. *)
Definition exampleAuthService : AuthService := {|
  SUPER_ADMIN_EMAIL := "admin@example.com";
  createUserWithEmailAndPassword := λ address _,
    if String.eqb address "taken@example.com"
    then Throw "auth/email-already-in-use"
    else Normal ("u-" +:+ address, address);
  setUserDoc := λ _ _ _, Normal ();
  signInWithEmailAndPassword := λ address pass,
    if String.eqb address "admin@example.com"
    then (if String.eqb pass "secret" then Normal () else Throw "auth/wrong-password")
    else Throw "auth/user-not-found"
|}.

(* ================================================================== *)
(** ** New orders ([AddOrderForm], [handleAddOrder], [docToOrder]) *)
(* ================================================================== *)

(** The data of an order without its id, as it is written to the store. *)
Record NewOrder := {
  newName : string;
  newRef : option string;
  newType : OrderType;
  newStatus : OrderStatus;
  newDate : string;
  newAddedBy : string
}.

(** [docToOrder]: the order of a document, from its id and its data. *)
Definition docToOrder (docId : string) (data : NewOrder) : Order :=
  {| id := docId; name := newName data; ref := newRef data; date := newDate data;
     type := newType data; status := newStatus data; addedBy := newAddedBy data |}.

(** [handleAddOrder]: the state and the documents handed to [addOrder].
    The write is not awaited: the message does not wait for its outcome. *)
Definition handleAddOrder (nameField refField : string) (ty : OrderType)
    (dateField : string) (st : AppState) : AppState * list NewOrder :=
  match currentUser st with
  | None => (st, [])
  | Some u =>
      (setToast (Some {| message := "تمت إضافة الأوردر بنجاح!"; toastType := success |}) st,
       [{| newName := nameField; newRef := Some refField; newType := ty;
           newStatus := pending; newDate := dateField; newAddedBy := email u |}])
  end.

(** The state hooks of [AddOrderForm]. *)
Record AddOrderFormState := {
  formName : string;
  formRef : string;
  formType : OrderType;
  formDate : string
}.

(** [handleSubmit] of [AddOrderForm], with [handleAddOrder] as its
    [onAddOrder]. *)
Definition handleSubmit `{JsRuntime} (form : AddOrderFormState) (st : AppState)
    : AddOrderFormState * AppState * list NewOrder :=
  if String.eqb (formName form) "" then (form, st, [])
  else
    let '(st', writes) :=
      handleAddOrder (formName form) (formRef form) (formType form) (formDate form) st in
    ({| formName := ""; formRef := ""; formType := formType form; formDate := todayISO |},
     st', writes).

(** The page before anybody has signed in. *)
Definition signedOutState : AppState := setCurrentUser None initialState.

(** The form with a name and a blank reference. *)
Definition blankRefForm : AddOrderFormState :=
  {| formName := "Nile"; formRef := ""; formType := income; formDate := "2024-03-05" |}.

(* ================================================================== *)
(** * Properties *)
(* ================================================================== *)

(** ** Selection tracker *)

Lemma AppState_eta (st : AppState) :
  {| currentUser := currentUser st; orders := orders st; toast := toast st;
     searchTerm := searchTerm st; dateFilter := dateFilter st;
     statusFilter := statusFilter st; sortOption := sortOption st;
     confirmModal := confirmModal st; selectedOrders := selectedOrders st |} = st.
Proof. by destruct st. Qed.

Lemma foldl_delete_ids (S : gset string) (l : list Order) :
  foldl (λ acc o, acc ∖ {[id o]}) S l = S ∖ orderIds l.
Proof.
  revert S. induction l as [|o l IH]; intros S; simpl.
  - unfold orderIds. simpl. set_solver.
  - rewrite IH. unfold orderIds. simpl. set_solver.
Qed.

Lemma foldl_add_ids (S : gset string) (l : list Order) :
  foldl (λ acc o, acc ∪ {[id o]}) S l = S ∪ orderIds l.
Proof.
  revert S. induction l as [|o l IH]; intros S; simpl.
  - unfold orderIds. simpl. set_solver.
  - rewrite IH. unfold orderIds. simpl. set_solver.
Qed.

Lemma every_selected_subseteq (S : gset string) (l : list Order) :
  forallb (λ o, bool_decide (id o ∈ S)) l = true ↔ orderIds l ⊆ S.
Proof.
  unfold orderIds. induction l as [|o l IH]; simpl.
  - split; [set_solver | done].
  - rewrite andb_true_iff, bool_decide_eq_true, IH. set_solver.
Qed.

Section SelectionProperties.
Context `{JsRuntime}.

Lemma ordersToSelect_setSelectedOrders ty S st :
  ordersToSelect ty (setSelectedOrders S st) = ordersToSelect ty st.
Proof. by destruct ty. Qed.

Lemma handleSelectAll_selection ty st :
  selectedOrders (handleSelectAll ty st) =
    if bool_decide (orderIds (ordersToSelect ty st) ⊆ selectedOrders st)
    then selectedOrders st ∖ orderIds (ordersToSelect ty st)
    else selectedOrders st ∪ orderIds (ordersToSelect ty st).
Proof.
  unfold handleSelectAll. simpl.
  destruct (forallb _ _) eqn:E.
  - apply every_selected_subseteq in E.
    rewrite bool_decide_eq_true_2 by done. apply foldl_delete_ids.
  - rewrite bool_decide_eq_false_2; [apply foldl_add_ids|].
    intros E'. apply every_selected_subseteq in E'. congruence.
Qed.

End SelectionProperties.

(** C9. [handleSelectOrder] toggles one id: after it the id is selected
    exactly when it was not before, the membership of every other id is
    the same, and toggling the same id twice gives back the selection,
    and with it the whole state. *)
Theorem handleSelectOrder_involution (st : AppState) (x : string) :
  let S := selectedOrders st in
  let S' := selectedOrders (handleSelectOrder x st) in
  (x ∈ S' ↔ x ∉ S)
  ∧ (∀ y, y ≠ x → (y ∈ S' ↔ y ∈ S))
  ∧ selectedOrders (handleSelectOrder x (handleSelectOrder x st)) = S
  ∧ handleSelectOrder x (handleSelectOrder x st) = st.
Proof.
  assert (Hsel : ∀ st0, selectedOrders (handleSelectOrder x st0) =
            if bool_decide (x ∈ selectedOrders st0)
            then selectedOrders st0 ∖ {[x]} else selectedOrders st0 ∪ {[x]}) by done.
  assert (Htwice : selectedOrders (handleSelectOrder x (handleSelectOrder x st))
                   = selectedOrders st).
  { rewrite !Hsel. destruct (decide (x ∈ selectedOrders st)) as [Hin|Hout].
    - rewrite (bool_decide_eq_true_2 _ Hin).
      rewrite bool_decide_eq_false_2 by set_solver.
      apply set_eq. intros y. destruct (decide (y = x)); set_solver.
    - rewrite (bool_decide_eq_false_2 _ Hout).
      rewrite bool_decide_eq_true_2 by set_solver. set_solver. }
  cbv zeta. repeat split.
  - rewrite Hsel. case_bool_decide; set_solver.
  - rewrite Hsel. case_bool_decide; set_solver.
  - rewrite Hsel. case_bool_decide; set_solver.
  - rewrite Hsel. case_bool_decide; set_solver.
  - exact Htwice.
  - change (handleSelectOrder x (handleSelectOrder x st)) with
      (setSelectedOrders
         (selectedOrders (handleSelectOrder x (handleSelectOrder x st))) st).
    rewrite Htwice. apply AppState_eta.
Qed.

(** C1, as stated, fails when only a part of the table is selected: with
    [a] selected and the income table showing [a] and [b], the first call
    selects both and the second one deselects both. *)
Lemma selectAll_twice_counterexample :
  let st := partialSelectionState in
  elements (selectedOrders st) = ["a"]
  ∧ map id (@ordersToSelect exampleRuntime income st) = ["b"; "a"]
  ∧ elements (selectedOrders (@handleSelectAll exampleRuntime income st)) = ["a"; "b"]
  ∧ selectedOrders
      (@handleSelectAll exampleRuntime income
         (@handleSelectAll exampleRuntime income st)) = ∅
  ∧ selectedOrders
      (@handleSelectAll exampleRuntime income
         (@handleSelectAll exampleRuntime income st)) ≠ selectedOrders st.
Proof.
  cbv zeta. repeat split; try (vm_compute; reflexivity).
  apply (proj1 (bool_decide_eq_false _)). vm_compute. reflexivity.
Qed.

(** C1, amended.  Two calls of [handleSelectAll] for the same table give
    back the selection exactly when the selection held all the ids of the
    table or none of them. *)
Theorem selectAll_twice_roundtrip `{JsRuntime} (ty : OrderType) (st : AppState) :
  let V := orderIds (ordersToSelect ty st) in
  selectedOrders (handleSelectAll ty (handleSelectAll ty st)) = selectedOrders st
  ↔ (V ⊆ selectedOrders st ∨ V ## selectedOrders st).
Proof.
  cbv zeta.
  rewrite (handleSelectAll_selection ty (handleSelectAll ty st)).
  assert (Hv : ordersToSelect ty (handleSelectAll ty st) = ordersToSelect ty st)
    by apply ordersToSelect_setSelectedOrders.
  rewrite Hv, handleSelectAll_selection.
  set (V := orderIds (ordersToSelect ty st)). set (S := selectedOrders st).
  destruct (decide (V ⊆ S)) as [Hsub|Hnsub].
  - rewrite (bool_decide_eq_true_2 _ Hsub).
    split; [by left|intros _].
    case_bool_decide as Hagain.
    + apply set_eq. intros y. set_solver.
    + apply set_eq. intros y. destruct (decide (y ∈ V)); set_solver.
  - rewrite (bool_decide_eq_false_2 _ Hnsub).
    rewrite bool_decide_eq_true_2 by set_solver.
    split.
    + intros Heq. right. intros y Hy HyS.
      assert (y ∈ (S ∪ V) ∖ V) as Hc by (rewrite Heq; exact HyS).
      set_solver.
    + intros [Hsub|Hdisj]; [done|].
      apply set_eq. intros y. set_solver.
Qed.

(** The round trip of C1 on a selection that holds the whole table. *)
Lemma selectAll_twice_roundtrip_witness :
  selectedOrders
    (@handleSelectAll exampleRuntime income
       (@handleSelectAll exampleRuntime income fullSelectionState))
  = selectedOrders fullSelectionState.
Proof.
  apply (proj2 (@selectAll_twice_roundtrip exampleRuntime income fullSelectionState)).
  left. apply (bool_decide_unpack _). vm_compute. exact I.
Defined.

(** ** Snapshots of the record set and the selection *)

Lemma size_presentSelection (st : AppState) :
  size (presentSelection st) = size (selectedOrders st)
  ↔ selectedOrders st ⊆ orderIds (orders st).
Proof.
  unfold presentSelection. split.
  - intros Hsize.
    assert (Hsub : selectedOrders st ∩ orderIds (orders st) ⊆ selectedOrders st)
      by set_solver.
    assert (Heq : selectedOrders st ∩ orderIds (orders st) ≡ selectedOrders st).
    { apply set_subseteq_size_equiv; [exact Hsub | lia]. }
    set_solver.
  - intros Hsub. f_equal. apply set_eq. set_solver.
Qed.

(** C2, as stated, fails: the selected order [a] is not in the new, empty
    record set, yet it stays in the selection and the page shows the
    count 1 where no selected id is present. *)
Lemma snapshot_keeps_stale_counterexample :
  let st := onOrdersSnapshot [] partialSelectionState in
  orders st = []
  ∧ "a" ∈ selectedOrders st
  ∧ ("a" ∉ orderIds (orders st))
  ∧ displayedSelectionCount st = Some 1%nat
  ∧ deleteButtonLabel st = Some "مسح المحدد (١)"
  ∧ size (presentSelection st) = 0%nat
  ∧ ¬ (selectedOrders st ⊆ orderIds (orders st))
  ∧ ¬ (∀ n, displayedSelectionCount st = Some n → n = size (presentSelection st)).
Proof.
  cbv zeta.
  split; [reflexivity|].
  split; [apply (bool_decide_unpack _); vm_compute; exact I|].
  split; [apply (proj1 (bool_decide_eq_false _)); vm_compute; reflexivity|].
  split; [vm_compute; reflexivity|].
  split; [vm_compute; reflexivity|].
  split; [vm_compute; reflexivity|].
  split; [apply (proj1 (bool_decide_eq_false _)); vm_compute; reflexivity|].
  intros Hall. specialize (Hall 1%nat eq_refl). vm_compute in Hall. discriminate.
Qed.

(** C2, amended.  A snapshot replaces the record set and leaves the
    selection as it is: a selected id that is not in the new record set
    stays selected.  The count on the page is the size of the selection,
    such ids included; it is the number of selected ids still present
    exactly when every selected id is in the record set. *)
Theorem snapshot_keeps_selection (snapshot : list Order) (st : AppState) :
  let st' := onOrdersSnapshot snapshot st in
  orders st' = snapshot
  ∧ selectedOrders st' = selectedOrders st
  ∧ displayedSelectionCount st' = displayedSelectionCount st
  ∧ (∀ n, displayedSelectionCount st' = Some n → n = size (selectedOrders st))
  ∧ (size (presentSelection st') = size (selectedOrders st')
     ↔ selectedOrders st ⊆ orderIds snapshot).
Proof.
  cbv zeta. repeat split; try reflexivity.
  - unfold displayedSelectionCount. simpl.
    intros n Hn. destruct (isAdmin _ && _); congruence.
  - intros Hsize. by apply size_presentSelection in Hsize.
  - intros Hsub. by apply size_presentSelection.
Qed.

(** ** Batch delete *)

Lemma confirmDelete_commit_succeeds `{Network} (st : AppState) (m : ConfirmModalProps) :
  confirmModal st = Some m →
  batchCommit (elements (capturedSelection m)) = None →
  let done := {| message := "تم حذف الأوردرات المحددة بنجاح."; toastType := success |} in
  confirmDelete st =
    (Normal (),
     {| app := setConfirmModal None
                 (setToast (Some done) (setSelectedOrders ∅ st));
        trace := [BatchCommit (elements (capturedSelection m)); ShowToast done] |}).
Proof.
  intros Hm Hc. unfold confirmDelete. rewrite Hm.
  unfold runHandler, onConfirm, deleteOrders, showToast, mbind, Eff_bind, emit, setState.
  simpl. rewrite Hc. reflexivity.
Qed.

(** C3. When the commit of the delete batch fails, [onConfirm] stops at
    its [await]: the selection and the rest of the state are as before
    and no notification is emitted, the success one in particular.  The
    failure is not shown to the user either: the handler ends with the
    rejection uncaught, without a notification, the dialog still open. *)
Theorem confirmDelete_commit_fails `{Network}
    (st : AppState) (m : ConfirmModalProps) (e : string) :
  confirmModal st = Some m →
  batchCommit (elements (capturedSelection m)) = Some e →
  let '(completion, w) := confirmDelete st in
  completion = Throw e
  ∧ app w = st
  ∧ selectedOrders (app w) = selectedOrders st
  ∧ toastsOf success (trace w) = []
  ∧ toastsOf error (trace w) = []
  ∧ toast (app w) = toast st
  ∧ confirmModal (app w) = Some m.
Proof.
  intros Hm Hc. unfold confirmDelete. rewrite Hm.
  unfold runHandler, onConfirm, deleteOrders, showToast, mbind, Eff_bind, emit, setState.
  simpl. rewrite Hc. simpl. by destruct st.
Qed.

(** C3 on a page with one selected order, the store refusing the commit:
    the selection stays, and nothing tells the user. *)
Lemma confirmDelete_commit_fails_witness :
  let st := handleDeleteSelected partialSelectionState in
  let '(completion, w) := @confirmDelete failingNetwork st in
  completion = Throw "permission-denied"
  ∧ app w = st
  ∧ selectedOrders (app w) = selectedOrders st
  ∧ toastsOf success (trace w) = []
  ∧ toastsOf error (trace w) = []
  ∧ toast (app w) = toast st
  ∧ confirmModal (app w) = confirmModal st.
Proof.
  exact (@confirmDelete_commit_fails failingNetwork
           (handleDeleteSelected partialSelectionState)
           {| title := "تأكيد الحذف";
              modalMessage := "هل أنت متأكد من رغبتك في حذف 1 أوردر(ات)؟ لا يمكن التراجع عن هذا الإجراء.";
              confirmText := "نعم، احذف";
              capturedSelection := selectedOrders partialSelectionState |}
           "permission-denied" eq_refl eq_refl).
Defined.

(** ** PDF export *)

Section PdfExport.
Context `{JsRuntime} `{Network}.

Lemma fetchFontBase64_fails :
  FontFetchFails (fetch fontUrl) → ∃ e, ∀ w, fetchFontBase64 w = (Throw e, w).
Proof.
  unfold fetchFontBase64. intros Hf. inversion Hf as [reason Hr|txt body Hr|txt e Hr].
  - by exists reason.
  - by eexists.
  - by exists e.
Qed.

End PdfExport.

(** C8. On an empty projection [handleExportPDF] shows one error message
    and returns: nothing is fetched and no document is saved.  When the
    projection has rows and the font cannot be obtained, the failure is
    caught inside the handler: it completes normally, its one error
    message is the export error, no success message follows the progress
    message and no document is saved. *)
Theorem handleExportPDF_guards `{JsRuntime} `{Network} (st : AppState) :
  let nothing := {| message := "لا توجد بيانات لتصديرها."; toastType := error |} in
  let preparing := {| message := "جاري تحضير ملف PDF..."; toastType := success |} in
  let failed :=
    {| message := "حدث خطأ أثناء تحميل الخط أو تصدير PDF."; toastType := error |} in
  (filteredAndSortedOrders st = [] →
     runHandler handleExportPDF st =
       (Normal (), {| app := setToast (Some nothing) st; trace := [ShowToast nothing] |}))
  ∧ (filteredAndSortedOrders st ≠ [] → FontFetchFails (fetch fontUrl) →
     let '(completion, w) := runHandler handleExportPDF st in
     completion = Normal ()
     ∧ trace w = [ShowToast preparing; ConsoleError "Error exporting PDF:"; ShowToast failed]
     ∧ toastsOf error (trace w) = [failed]
     ∧ toastsOf success (trace w) = [preparing]
     ∧ savedDocuments (trace w) = []
     ∧ app w = setToast (Some failed) st).
Proof.
  cbv zeta. split.
  - intros Hempty. unfold runHandler, handleExportPDF. simpl. rewrite Hempty. reflexivity.
  - intros Hrows Hfont.
    destruct (fetchFontBase64_fails Hfont) as [e He].
    unfold runHandler, handleExportPDF. simpl.
    destruct (filteredAndSortedOrders st) as [|o rows]; [done|]. simpl.
    unfold mbind, Eff_bind, tryCatch, showToast, mbind, Eff_bind, emit, setState. simpl.
    rewrite He. simpl. repeat split; reflexivity.
Qed.

(** C8 on a page without orders, and on a page with two orders when the
    font server answers with an error status. *)
Lemma handleExportPDF_guards_witness :
  (@runHandler unit (@handleExportPDF exampleRuntime failingNetwork) initialState =
     (Normal (),
      {| app := setToast (Some {| message := "لا توجد بيانات لتصديرها.";
                                  toastType := error |}) initialState;
         trace := [ShowToast {| message := "لا توجد بيانات لتصديرها.";
                                toastType := error |}] |}))
  ∧ (let '(completion, w) :=
       @runHandler unit (@handleExportPDF exampleRuntime failingNetwork)
         partialSelectionState in
     completion = Normal ()
     ∧ toastsOf error (trace w) =
         [{| message := "حدث خطأ أثناء تحميل الخط أو تصدير PDF."; toastType := error |}]
     ∧ savedDocuments (trace w) = []).
Proof.
  split.
  - apply (proj1 (@handleExportPDF_guards exampleRuntime failingNetwork initialState)).
    reflexivity.
  - pose proof (proj2 (@handleExportPDF_guards exampleRuntime failingNetwork
                         partialSelectionState)) as Hguard.
    cbv zeta in Hguard.
    assert (Hrows : @filteredAndSortedOrders exampleRuntime partialSelectionState ≠ [])
      by (vm_compute; discriminate).
    specialize (Hguard Hrows (FontFetchFails_status _ _)).
    destruct (runHandler handleExportPDF partialSelectionState) as [completion w].
    destruct Hguard as (Hc & _ & He & _ & Hs & _). auto.
Defined.

(** ** Sorting and partition *)

Section SortBy.
Context {A : Type} (cmp : A → A → Z).

Lemma insertBy_perm (x : A) (l : list A) : insertBy cmp x l ≡ₚ x :: l.
Proof.
  induction l as [|y l IH]; simpl; [done|].
  destruct (cmp x y <=? 0); [done|].
  rewrite IH. apply Permutation_swap.
Qed.

Lemma sortBy_perm (l : list A) : sortBy cmp l ≡ₚ l.
Proof.
  induction l as [|x l IH]; simpl; [done|].
  unfold sortBy in *. simpl. by rewrite insertBy_perm, IH.
Qed.

Lemma sortBy_length (l : list A) : length (sortBy cmp l) = length l.
Proof. apply Permutation_length, sortBy_perm. Qed.

Lemma sortBy_nil_inv (l : list A) : sortBy cmp l = [] → l = [].
Proof.
  intros Hs. apply length_zero_iff_nil. rewrite <- sortBy_length, Hs. done.
Qed.

Lemma insertBy_sorted (x : A) (l : list A) :
  ConsistentComparator cmp →
  StronglySorted (λ a b, cmp a b <= 0) l →
  StronglySorted (λ a b, cmp a b <= 0) (insertBy cmp x l).
Proof.
  intros [Htotal Htrans] Hsorted.
  induction Hsorted as [|y l Hl IH Hy]; simpl.
  - repeat constructor.
  - destruct (cmp x y <=? 0) eqn:Hxy.
    + apply Z.leb_le in Hxy. constructor.
      * by constructor.
      * constructor; [done|].
        eapply Forall_impl; [exact Hy|]. intros z Hz. by eapply Htrans.
    + apply Z.leb_gt in Hxy. constructor; [done|].
      rewrite insertBy_perm. constructor; [|done].
      destruct (Htotal x y); [lia|done].
Qed.

Lemma sortBy_sorted (l : list A) :
  ConsistentComparator cmp → StronglySorted (λ a b, cmp a b <= 0) (sortBy cmp l).
Proof.
  intros Hc. induction l as [|x l IH]; [constructor|].
  by apply insertBy_sorted.
Qed.

End SortBy.

Lemma sort_ext `{JsRuntime} {A} (cmp1 cmp2 : A → A → Z) (l : list A) :
  (∀ a b, cmp1 a b = cmp2 a b) → sort cmp1 l = sort cmp2 l.
Proof.
  intros Hext. rewrite <- (map_id l) at 1.
  rewrite (sort_natural (λ x, x) cmp2 cmp1); [apply map_id|].
  intros a b. by rewrite Hext.
Qed.

Lemma filter_Interleave {A} (f g : A → bool) (l : list A) :
  (∀ x, g x = negb (f x)) →
  Interleave (List.filter f l) (List.filter g l) l.
Proof.
  intros Hfg. induction l as [|x l IH]; simpl; [constructor|].
  rewrite Hfg. destruct (f x); simpl; by constructor.
Qed.

Lemma Interleave_sublist_l {A} (l1 l2 l : list A) :
  Interleave l1 l2 l → sublist l1 l.
Proof. induction 1; by constructor. Qed.

Lemma Interleave_sublist_r {A} (l1 l2 l : list A) :
  Interleave l1 l2 l → sublist l2 l.
Proof. induction 1; by constructor. Qed.

Lemma Interleave_perm {A} (l1 l2 l : list A) :
  Interleave l1 l2 l → l1 ++ l2 ≡ₚ l.
Proof.
  induction 1 as [|x l1 l2 l _ IH|x l1 l2 l _ IH]; simpl.
  - done.
  - by rewrite IH.
  - by rewrite <- Permutation_middle, IH.
Qed.

Lemma OrderType_eqb_eq (a b : OrderType) : OrderType_eqb a b = true ↔ a = b.
Proof. destruct a, b; simpl; split; congruence. Qed.

Lemma OrderStatus_eqb_eq (a b : OrderStatus) : OrderStatus_eqb a b = true ↔ a = b.
Proof. destruct a, b; simpl; split; congruence. Qed.

(** C4. The sorted list is the runtime's sort of the filtered one, the
    stable sort when the comparator is consistent on it, and in every
    case a rearrangement of it;
    [incomeOrders] holds income orders only and [expenseOrders] expense
    orders only; the sorted list is a merge of the two, so each of them
    keeps the sorted order, nothing is dropped and nothing is repeated;
    every order of the sorted list is in the one sequence of its type and
    not in the other. *)
Theorem projection_partitions `{JsRuntime} (st : AppState) :
  let F := filteredOrders st in
  let L := filteredAndSortedOrders st in
  let I := incomeOrders st in
  let E := expenseOrders st in
  L = sort (compareOrders (sortOption st)) F
  ∧ (ConsistentOn (compareOrders (sortOption st)) F →
     L = sortBy (compareOrders (sortOption st)) F)
  ∧ L ≡ₚ F
  ∧ Forall (λ o, type o = income) I
  ∧ Forall (λ o, type o = expense) E
  ∧ Interleave I E L
  ∧ sublist I L ∧ sublist E L
  ∧ I ++ E ≡ₚ L
  ∧ (length I + length E = length L)%nat
  ∧ (∀ o, o ∈ L ↔ (type o = income ∧ o ∈ I ∧ o ∉ E)
                   ∨ (type o = expense ∧ o ∈ E ∧ o ∉ I)).
Proof.
  cbv zeta.
  assert (HI : Interleave (incomeOrders st) (expenseOrders st)
                 (filteredAndSortedOrders st)).
  { apply filter_Interleave. intros o. by destruct (type o). }
  assert (Hin : ∀ o, o ∈ incomeOrders st ↔
                     o ∈ filteredAndSortedOrders st ∧ type o = income).
  { intros o. unfold incomeOrders. rewrite !list_elem_of_In, filter_In.
    by rewrite OrderType_eqb_eq. }
  assert (Hex : ∀ o, o ∈ expenseOrders st ↔
                     o ∈ filteredAndSortedOrders st ∧ type o = expense).
  { intros o. unfold expenseOrders. rewrite !list_elem_of_In, filter_In.
    by rewrite OrderType_eqb_eq. }
  split; [reflexivity|].
  split; [apply sort_consistent|].
  split; [apply sort_perm|].
  split; [apply Forall_forall; intros o Ho; apply Hin in Ho; tauto|].
  split; [apply Forall_forall; intros o Ho; apply Hex in Ho; tauto|].
  split; [exact HI|].
  split; [by eapply Interleave_sublist_l|].
  split; [by eapply Interleave_sublist_r|].
  split; [by apply Interleave_perm|].
  split; [rewrite <- length_app; by apply Permutation_length, Interleave_perm|].
  intros o. rewrite Hin, Hex. destruct (type o) eqn:Ht; split.
  - intros Ho. left. repeat split; try done. intros [_ ?]; congruence.
  - intros [(_ & [Ho _] & _)|(? & _)]; [done|congruence].
  - intros Ho. right. repeat split; try done. intros [_ ?]; congruence.
  - intros [(? & _)|(_ & [Ho _] & _)]; [congruence|done].
Qed.

(** ** Strings *)

Lemma append_nil_r (s : string) : s +:+ "" = s.
Proof. induction s as [|c s IH]; simpl; [done | by rewrite IH]. Qed.

Lemma append_assoc (s t u : string) : (s +:+ t) +:+ u = s +:+ t +:+ u.
Proof. induction s as [|c s IH]; simpl; [done | by rewrite IH]. Qed.

Lemma eqb_empty (s : string) : String.eqb s "" = true ↔ s = "".
Proof. apply String.eqb_eq. Qed.

Lemma startsWith_spec (s p : string) :
  startsWith s p = true ↔ ∃ rest, s = p +:+ rest.
Proof.
  revert s. induction p as [|c p IH]; intros s; simpl.
  - split; [intros _; by exists s | done].
  - destruct s as [|d s].
    + split; [done | intros [rest Hr]; discriminate].
    + rewrite andb_true_iff, Ascii.eqb_eq, IH. split.
      * intros [-> [rest ->]]. by exists rest.
      * intros [rest Hr]. injection Hr as -> ->. split; [done | by exists rest].
Qed.

Lemma includes_spec (s p : string) :
  includes s p = true ↔ ∃ pre post, s = pre +:+ p +:+ post.
Proof.
  induction s as [|d s IH].
  - cbn [includes]. rewrite orb_false_r, startsWith_spec. split.
    + intros [rest Hr]. by exists "", rest.
    + intros (pre & post & Hs). destruct pre; [by exists post | discriminate].
  - cbn [includes]. rewrite orb_true_iff, startsWith_spec, IH. split.
    + intros [[rest Hr] | (pre & post & ->)].
      * by exists "", rest.
      * by exists (String d pre), post.
    + intros (pre & post & Hs). destruct pre as [|e pre].
      * left. by exists post.
      * right. injection Hs as -> ->. by exists pre, post.
Qed.

(** *** Letter case *)








Section LetterCase.
Context `{JsRuntime}.

Lemma toLowerCase_empty : toLowerCase "" = "".
Proof. by rewrite toLowerCase_ascii. Qed.

Lemma includes_lower_iff (s p : string) :
  includes (toLowerCase s) (toLowerCase p) = true ↔ ContainsIgnoreCase s p.
Proof. apply includes_spec. Qed.


Lemma ContainsIgnoreCase_empty (s : string) : ContainsIgnoreCase s "".
Proof. exists "", (toLowerCase s). by rewrite toLowerCase_empty. Qed.

Lemma ContainsIgnoreCase_in_empty (s p : string) :
  ContainsIgnoreCase "" p → ContainsIgnoreCase s p.
Proof.
  intros (pre & post & Heq). rewrite toLowerCase_empty in Heq.
  destruct pre; [|discriminate]. simpl in Heq.
  destruct (toLowerCase p) eqn:Hp; [|discriminate].
  exists "", (toLowerCase s). by rewrite Hp.
Qed.

End LetterCase.

(** ** Filter *)




Lemma matchesOrder_spec `{JsRuntime} (st : AppState) (o : Order) :
  matchesOrder st o = true ↔ SpecMatch st o.
Proof.
  unfold matchesOrder, SpecMatch, TextMatch, DateMatch, StatusMatch.
  rewrite !andb_true_iff.
  assert (Htext :
    includes (toLowerCase (name o)) (toLowerCase (searchTerm st))
    || match ref o with
       | Some r => truthy (Some r) && includes (toLowerCase r) (toLowerCase (searchTerm st))
       | None => false
       end = true
    ↔ searchTerm st = ""
      ∨ ContainsIgnoreCase (name o) (searchTerm st)
      ∨ (∃ r, ref o = Some r ∧ ContainsIgnoreCase r (searchTerm st))).
  { rewrite orb_true_iff, includes_lower_iff. split.
    - intros [Hn|Hr]; [tauto|]. destruct (ref o) as [r|]; [|done].
      apply andb_true_iff in Hr as [_ Hr]. apply includes_lower_iff in Hr.
      right. right. by exists r.
    - intros [Hempty|[Hn|(r & Hr & Hc)]].
      + left. rewrite Hempty. apply ContainsIgnoreCase_empty.
      + by left.
      + rewrite Hr. simpl. destruct (String.eqb r "") eqn:Hre.
        * apply String.eqb_eq in Hre. subst r.
          left. by apply ContainsIgnoreCase_in_empty.
        * right. by apply includes_lower_iff. }
  assert (Hdate :
    String.eqb (dateFilter st) "" || startsWith (date o) (dateFilter st) = true
    ↔ dateFilter st = "" ∨ ∃ rest, date o = dateFilter st +:+ rest).
  { by rewrite orb_true_iff, String.eqb_eq, startsWith_spec. }
  assert (Hstatus :
    match statusFilter st with
    | Some s => OrderStatus_eqb (status o) s
    | None => true
    end = true
    ↔ statusFilter st = None ∨ statusFilter st = Some (status o)).
  { destruct (statusFilter st) as [s|]; [|by split; [left|]].
    rewrite OrderStatus_eqb_eq. split; [intros ->; by right|].
    intros [?|[= ->]]; done. }
  rewrite Htext, Hdate, Hstatus. tauto.
Qed.

Lemma filter_all {A} (f : A → bool) (l : list A) :
  (∀ x, f x = true) → List.filter f l = l.
Proof. intros Hf. induction l as [|x l IH]; simpl; [done|]. by rewrite Hf, IH. Qed.

Lemma filteredOrders_no_filter `{JsRuntime} (st : AppState) :
  searchTerm st = "" → dateFilter st = "" → statusFilter st = None →
  filteredOrders st = orders st.
Proof.
  intros Hs Hd Hf. apply filter_all. intros o. apply matchesOrder_spec.
  split; [by left | split; by left].
Qed.


(** ** Absent and empty references *)

Lemma sortBy_map {A B} (f : A → B) (cmpA : A → A → Z) (cmpB : B → B → Z) (l : list A) :
  (∀ a b, cmpB (f a) (f b) = cmpA a b) →
  sortBy cmpB (map f l) = map f (sortBy cmpA l).
Proof.
  intros Hcmp.
  assert (Hins : ∀ x l0, insertBy cmpB (f x) (map f l0) = map f (insertBy cmpA x l0)).
  { intros x l0. induction l0 as [|y l0 IH]; simpl; [done|].
    rewrite Hcmp. destruct (cmpA x y <=? 0); simpl; [done | by rewrite IH]. }
  induction l as [|x l IH]; [done|].
  unfold sortBy in *. simpl. by rewrite IH, Hins.
Qed.

Lemma filter_map_comm {A B} (f : A → B) (p : B → bool) (q : A → bool) (l : list A) :
  (∀ a, p (f a) = q a) →
  List.filter p (map f l) = map f (List.filter q l).
Proof.
  intros Hpq. induction l as [|x l IH]; simpl; [done|].
  rewrite Hpq. destruct (q x); simpl; by rewrite IH.
Qed.

Lemma orElse_eraseEmptyRef (o : Order) (d : string) :
  orElse (ref (eraseEmptyRef o)) d = orElse (ref o) d.
Proof.
  unfold eraseEmptyRef. destruct (truthy (ref o)) eqn:Ht; [done|]. simpl.
  destruct (ref o) as [r|]; [|done]. simpl in *.
  apply negb_false_iff in Ht. by rewrite Ht.
Qed.

Lemma eraseEmptyRef_fields (o : Order) :
  id (eraseEmptyRef o) = id o ∧ name (eraseEmptyRef o) = name o
  ∧ date (eraseEmptyRef o) = date o ∧ type (eraseEmptyRef o) = type o
  ∧ status (eraseEmptyRef o) = status o ∧ addedBy (eraseEmptyRef o) = addedBy o.
Proof. unfold eraseEmptyRef. by destruct (truthy (ref o)). Qed.

Lemma matchesOrder_eraseEmptyRef `{JsRuntime} (st : AppState) (o : Order) :
  matchesOrder st (eraseEmptyRef o) = matchesOrder st o.
Proof.
  unfold eraseEmptyRef. destruct (truthy (ref o)) eqn:Ht; [done|].
  unfold matchesOrder. simpl. destruct (ref o) as [r|]; [|done].
  simpl in Ht. by rewrite Ht.
Qed.

Section EmptyRef.
Context `{JsRuntime}.

Lemma compareOrders_eraseEmptyRef (opt : string) (a b : Order) :
  compareOrders opt (eraseEmptyRef a) (eraseEmptyRef b) = compareOrders opt a b.
Proof.
  unfold compareOrders. rewrite !orElse_eraseEmptyRef.
  destruct (eraseEmptyRef_fields a) as (_ & -> & -> & _).
  destruct (eraseEmptyRef_fields b) as (_ & -> & -> & _). done.
Qed.

Lemma csvFields_eraseEmptyRef (o : Order) : csvFields (eraseEmptyRef o) = csvFields o.
Proof.
  unfold csvFields. rewrite orElse_eraseEmptyRef.
  by destruct (eraseEmptyRef_fields o) as (_ & -> & -> & -> & -> & ->).
Qed.

Lemma pdfRow_eraseEmptyRef (o : Order) : pdfRow (eraseEmptyRef o) = pdfRow o.
Proof.
  unfold pdfRow. rewrite orElse_eraseEmptyRef.
  by destruct (eraseEmptyRef_fields o) as (_ & -> & -> & -> & -> & ->).
Qed.

Lemma projection_eraseEmptyRef (os : list Order) (st : AppState) :
  filteredAndSortedOrders (setOrders (map eraseEmptyRef os) st) =
    map eraseEmptyRef (filteredAndSortedOrders (setOrders os st)).
Proof.
  unfold filteredAndSortedOrders, filteredOrders. simpl.
  rewrite (filter_map_comm eraseEmptyRef _ (matchesOrder (setOrders os st))).
  - apply sort_natural. apply compareOrders_eraseEmptyRef.
  - intros o. exact (matchesOrder_eraseEmptyRef st o).
Qed.

End EmptyRef.

(** C10. An order with the empty reference and the same order without a
    reference give the same result wherever the code reads [ref]: the
    same PDF row, with [N/A] in the reference column; [N/A] in the table;
    the same CSV fields, the third of them empty; the same comparator
    results in every sort mode, the reference counting as the empty
    string under [ref-asc] and [ref-desc]; the same filter verdict and
    the same summary line.  Replacing empty references by absent ones in
    the record set changes the projection by that replacement only, and
    the CSV text not at all. *)
Theorem empty_ref_is_absent_ref `{JsRuntime} (o x : Order) (st : AppState) :
  let a := withRef None o in
  let e := withRef (Some "") o in
  pdfRow e = pdfRow a
  ∧ (∀ d w, toISODate (date o) = Some d →
       pdfRow e w =
         (Normal [addedBy o; statusLabel (status o); d; "N/A"; name o;
                  typeLabel (type o)], w))
  ∧ tableRefCell e = "N/A" ∧ tableRefCell a = "N/A"
  ∧ csvFields e = csvFields a ∧ csvFields e !! 2%nat = Some ""
  ∧ csvRow e = csvRow a
  ∧ (∀ opt, compareOrders opt e x = compareOrders opt a x
            ∧ compareOrders opt x e = compareOrders opt x a)
  ∧ compareOrders "ref-asc" e x = localeCompareNumeric "" (orElse (ref x) "")
  ∧ compareOrders "ref-desc" e x = localeCompareNumeric (orElse (ref x) "") ""
  ∧ matchesOrder st e = matchesOrder st a
  ∧ summaryLine e = summaryLine a
  ∧ eraseEmptyRef e = a
  ∧ (∀ os,
       filteredAndSortedOrders (setOrders (map eraseEmptyRef os) st) =
         map eraseEmptyRef (filteredAndSortedOrders (setOrders os st)))
  ∧ (∀ os,
       csvContent (filteredAndSortedOrders (setOrders (map eraseEmptyRef os) st)) =
         csvContent (filteredAndSortedOrders (setOrders os st)))
  ∧ (∀ os,
       mapEff pdfRow (filteredAndSortedOrders (setOrders (map eraseEmptyRef os) st)) =
         mapEff pdfRow (filteredAndSortedOrders (setOrders os st))).
Proof.
  cbv zeta.
  split; [reflexivity|].
  split; [intros d w Hd; unfold pdfRow; simpl; by rewrite Hd|].
  split; [reflexivity|]. split; [reflexivity|].
  split; [reflexivity|]. split; [reflexivity|]. split; [reflexivity|].
  split; [intros opt; split; reflexivity|].
  split; [reflexivity|]. split; [reflexivity|].
  split; [reflexivity|]. split; [reflexivity|]. split; [reflexivity|].
  split; [intros os; apply projection_eraseEmptyRef|].
  split.
  - intros os. rewrite projection_eraseEmptyRef. unfold csvContent.
    rewrite map_map. f_equal. apply map_ext. intros o'.
    unfold csvRow. by rewrite csvFields_eraseEmptyRef.
  - intros os. rewrite projection_eraseEmptyRef.
    induction (filteredAndSortedOrders (setOrders os st)) as [|o' l IH]; [done|].
    simpl. by rewrite pdfRow_eraseEmptyRef, IH.
Qed.

(** ** CSV export *)






Lemma escapeCsvField_quoted (f : string) :
  needsQuotes f = true →
  escapeCsvField (Some f) = String quoteChar (doubleQuotes f +:+ str1 quoteChar).
Proof. unfold escapeCsvField, needsQuotes. by intros ->. Qed.

Lemma escapeCsvField_plain (f : string) :
  needsQuotes f = false → escapeCsvField (Some f) = f.
Proof. unfold escapeCsvField, needsQuotes. by intros ->. Qed.








(** ** Numeric-aware comparison of references *)

Lemma N_compare_trans (x y z : N) (c : comparison) :
  N.compare x y = c → N.compare y z = c → N.compare x z = c.
Proof.
  destruct c; intros Hxy Hyz.
  - apply N.compare_eq_iff in Hxy. apply N.compare_eq_iff in Hyz.
    apply N.compare_eq_iff. congruence.
  - exact (N.lt_trans x y z Hxy Hyz).
  - apply N.compare_gt_iff in Hxy. apply N.compare_gt_iff in Hyz.
    apply N.compare_gt_iff. exact (N.lt_trans z y x Hyz Hxy).
Qed.

Lemma numericCompare_le_iff (a b : string) :
  numericCompare a b <= 0 ↔
  list_compare N.compare (numericKey a) (numericKey b) ≠ Gt.
Proof.
  unfold numericCompare.
  destruct (list_compare _ _ _); simpl; split; intros Hc; try lia; congruence.
Qed.

Lemma numericCompare_consistent : ConsistentComparator numericCompare.
Proof.
  split.
  - intros a b. rewrite !numericCompare_le_iff.
    rewrite (list_compare_antisym N.compare N.compare_eq_iff (numericKey a) (numericKey b)
               (λ x y, N.compare_antisym x y)).
    destruct (list_compare N.compare (numericKey a) (numericKey b)); simpl; auto.
  - intros a b c. rewrite !numericCompare_le_iff. intros Hab Hbc.
    destruct (list_compare N.compare (numericKey a) (numericKey b)) eqn:Eab; [| |done].
    + apply (list_compare_refl N.compare N.compare_eq_iff) in Eab. by rewrite Eab.
    + destruct (list_compare N.compare (numericKey b) (numericKey c)) eqn:Ebc; [| |done].
      * apply (list_compare_refl N.compare N.compare_eq_iff) in Ebc. rewrite <- Ebc, Eab. done.
      * rewrite (list_compare_trans N.compare N.compare_eq_iff _ _ _
                   N_compare_trans (λ x y, N.compare_antisym x y) Eab Ebc). done.
Qed.

Lemma ConsistentComparator_key {A B} (key : A → B) (cmp : B → B → Z) :
  ConsistentComparator cmp → ConsistentComparator (λ a b, cmp (key a) (key b)).
Proof. intros [Ht Htr]. split; [intros a b; apply Ht | intros a b c; apply Htr]. Qed.

Lemma ConsistentComparator_flip {A} (cmp : A → A → Z) :
  ConsistentComparator cmp → ConsistentComparator (λ a b, cmp b a).
Proof.
  intros [Ht Htr]. split.
  - intros a b. destruct (Ht a b); auto.
  - intros a b c Hab Hbc. by eapply Htr.
Qed.

Lemma comparisonToZ_ConsistentOn {A B} (c : B → B → comparison) (key : A → B)
    (l : list A) :
  (∀ x, c x x = Eq) →
  (∀ x y, c y x = CompOpp (c x y)) →
  (∀ x y z c0, c x y = c0 → c y z = c0 → c x z = c0) →
  ConsistentOn (λ a b, comparisonToZ (c (key a) (key b))) l.
Proof.
  intros Hrefl Hanti Htrans.
  assert (Hz : ∀ r, comparisonToZ r = 0 ↔ r = Eq) by (intros []; simpl; split; (lia || done)).
  assert (Hl : ∀ r, comparisonToZ r < 0 ↔ r = Lt) by (intros []; simpl; split; (lia || done)).
  assert (Hg : ∀ r, comparisonToZ r > 0 ↔ r = Gt) by (intros []; simpl; split; (lia || done)).
  split; [|split; [|split; [|split]]].
  - intros a _. by rewrite Hrefl.
  - intros a b _ _. rewrite !Hz. intros Hab. by rewrite Hanti, Hab.
  - intros a b d _ _ _. rewrite !Hz. apply Htrans.
  - intros a b d _ _ _. rewrite !Hl. apply Htrans.
  - intros a b d _ _ _. rewrite !Hg. apply Htrans.
Qed.

Lemma numericCompare_ConsistentOn {A} (key : A → string) (l : list A) :
  ConsistentOn (λ a b, numericCompare (key a) (key b)) l
  ∧ ConsistentOn (λ a b, numericCompare (key b) (key a)) l.
Proof.
  assert (Hanti : ∀ x y, list_compare N.compare y x = CompOpp (list_compare N.compare x y)).
  { intros x y. apply (list_compare_antisym N.compare N.compare_eq_iff).
    intros n m. apply N.compare_antisym. }
  assert (Htrans : ∀ x y z c0, list_compare N.compare x y = c0 →
            list_compare N.compare y z = c0 → list_compare N.compare x z = c0).
  { intros x y z c0. apply (list_compare_trans N.compare N.compare_eq_iff).
    - apply N_compare_trans.
    - intros n m. apply N.compare_antisym. }
  assert (Hrefl : ∀ x, list_compare N.compare x x = Eq).
  { intros x. by apply (list_compare_refl N.compare N.compare_eq_iff). }
  split.
  - apply (comparisonToZ_ConsistentOn (list_compare N.compare) (λ a, numericKey (key a)));
      done.
  - apply (comparisonToZ_ConsistentOn (λ x y, list_compare N.compare y x)
             (λ a, numericKey (key a))); [done| |].
    + intros x y. by rewrite (Hanti x y), CompOpp_involutive.
    + intros x y z c0 Hxy Hyz. by apply (Htrans z y x).
Qed.


Lemma StronglySorted_lookup {A} (R : A → A → Prop) (l : list A) (i j : nat) (x y : A) :
  StronglySorted R l → l !! i = Some x → l !! j = Some y → (i < j)%nat → R x y.
Proof.
  intros Hs. revert i j. induction Hs as [|z l Hs IH Hz]; intros i j Hi Hj Hlt.
  - done.
  - destruct j as [|j]; [lia|]. simpl in Hj. destruct i as [|i].
    + simpl in Hi. injection Hi as ->.
      rewrite Forall_forall in Hz. apply Hz. by eapply list_elem_of_lookup_2.
    + simpl in Hi. eapply IH; [done..|lia].
Qed.

(** *** Segments of a string *)

Lemma segmentsFrom_run_nonempty (n : N) (s : string) : segmentsFrom (Some n) s ≠ [].
Proof.
  revert n. induction s as [|c s IH]; intros n; simpl; [done|].
  destruct (isDigit c); [apply IH | done].
Qed.

Lemma segments_nil_iff (s : string) : segments s = [] ↔ s = "".
Proof.
  split; [|by intros ->]. unfold segments. destruct s as [|c s]; [done|]. simpl.
  destruct (isDigit c); [|done]. intros Hs. by apply segmentsFrom_run_nonempty in Hs.
Qed.

Lemma numericKey_nil_iff (s : string) : numericKey s = [] ↔ s = "".
Proof.
  rewrite <- segments_nil_iff. unfold numericKey.
  destruct (segments s) as [|[c|n] l]; simpl; split; done.
Qed.

Lemma numericCompare_empty_l (s : string) : numericCompare "" s <= 0.
Proof.
  unfold numericCompare. change (numericKey "") with (@nil N).
  destruct (numericKey s); simpl; lia.
Qed.

Lemma numericCompare_empty_r (s : string) : numericCompare s "" <= 0 → s = "".
Proof.
  unfold numericCompare. change (numericKey "") with (@nil N).
  destruct (numericKey s) eqn:Hk; simpl; [|lia].
  intros _. by apply numericKey_nil_iff.
Qed.

Lemma append_cons (c : ascii) (s t : string) : String c s +:+ t = String c (s +:+ t).
Proof. reflexivity. Qed.

Lemma segmentsFrom_digit (c : ascii) (s : string) (run : option N) :
  isDigit c = true →
  segmentsFrom run (String c s) =
    segmentsFrom (Some (10 * default 0%N run + digitValue c)%N) s.
Proof. simpl. by intros ->. Qed.

Lemma segmentsFrom_other (c : ascii) (s : string) (run : option N) :
  isDigit c = false →
  segmentsFrom run (String c s) = flushRun run ++ Chr c :: segmentsFrom None s.
Proof. simpl. by intros ->. Qed.

Lemma segmentsFrom_digits (c : ascii) (d : string) (run : option N) (q : string) :
  allDigits (String c d) = true →
  segmentsFrom run (String c d +:+ q) =
    segmentsFrom
      (Some (fold_left (λ acc c, (10 * acc + digitValue c)%N)
               (String.list_ascii_of_string (String c d)) (default 0%N run))) q.
Proof.
  revert c run. induction d as [|c' d IH]; intros c run Hd;
    apply andb_true_iff in Hd as [Hc Hd];
    rewrite append_cons, segmentsFrom_digit by done.
  - reflexivity.
  - by rewrite IH.
Qed.

Lemma segmentsFrom_flush (n : N) (q : string) :
  startsOutsideRun q = true → segmentsFrom (Some n) q = Num n :: segments q.
Proof.
  destruct q as [|c q]; simpl; [done|]. intros Hc. apply negb_true_iff in Hc.
  unfold segments. simpl. by rewrite Hc.
Qed.

Lemma segmentsFrom_prefix (p s : string) (run : option N) :
  p ≠ "" → endsOutsideRun p = true →
  segmentsFrom run (p +:+ s) = segmentsFrom run p ++ segments s.
Proof.
  revert run. induction p as [|c p IH]; intros run Hne Hp; [done|].
  rewrite append_cons. destruct p as [|c' p].
  - simpl in Hp. apply negb_true_iff in Hp.
    rewrite !segmentsFrom_other by done. unfold segments. simpl.
    by rewrite <- app_assoc.
  - change (endsOutsideRun (String c' p) = true) in Hp.
    destruct (isDigit c) eqn:Hc.
    + rewrite !(segmentsFrom_digit c) by done. by apply IH.
    + rewrite !(segmentsFrom_other c) by done. rewrite IH by done.
      by rewrite <- app_assoc.
Qed.

Lemma segments_embedded (p d q : string) :
  endsOutsideRun p = true → allDigits d = true → d ≠ "" →
  startsOutsideRun q = true →
  segments (p +:+ d +:+ q) = segments p ++ Num (digitsValue d) :: segments q.
Proof.
  intros Hp Hd Hne Hq.
  assert (Hdq : segments (d +:+ q) = Num (digitsValue d) :: segments q).
  { destruct d as [|c d]; [done|]. unfold segments.
    rewrite segmentsFrom_digits by done. by rewrite segmentsFrom_flush. }
  destruct p as [|c p]; [exact Hdq|].
  unfold segments at 1. rewrite segmentsFrom_prefix by done. by rewrite Hdq.
Qed.

Lemma numericCompare_embedded (p d1 d2 q1 q2 : string) :
  endsOutsideRun p = true →
  allDigits d1 = true → d1 ≠ "" → allDigits d2 = true → d2 ≠ "" →
  startsOutsideRun q1 = true → startsOutsideRun q2 = true →
  (digitsValue d1 < digitsValue d2)%N →
  numericCompare (p +:+ d1 +:+ q1) (p +:+ d2 +:+ q2) = -1.
Proof.
  intros Hp Hd1 Hn1 Hd2 Hn2 Hq1 Hq2 Hlt. unfold numericCompare, numericKey.
  rewrite !segments_embedded by done.
  rewrite !map_app, !concat_app.
  rewrite (list_compare_app N.compare N.compare_eq_iff). simpl.
  apply N.compare_lt_iff in Hlt. by rewrite Hlt.
Qed.

Lemma numericCompare_digits (d1 d2 : string) :
  allDigits d1 = true → d1 ≠ "" → allDigits d2 = true → d2 ≠ "" →
  numericCompare d1 d2 = comparisonToZ (N.compare (digitsValue d1) (digitsValue d2)).
Proof.
  intros Hd1 Hn1 Hd2 Hn2. unfold numericCompare, numericKey.
  pose proof (segments_embedded "" d1 "" eq_refl Hd1 Hn1 eq_refl) as H1.
  pose proof (segments_embedded "" d2 "" eq_refl Hd2 Hn2 eq_refl) as H2.
  simpl in H1, H2. rewrite append_nil_r in H1, H2. rewrite H1, H2. simpl.
  by destruct (N.compare (digitsValue d1) (digitsValue d2)).
Qed.

(** C6. On a runtime whose numeric collation is the modelled one:
    under [ref-asc] the projection is the filtered list rearranged so
    that every order stands before the orders whose reference is not
    smaller, a missing reference counting as the empty string; no order
    with a reference that is not empty stands before an order without
    one; [ref-desc] compares the other way round and gives the opposite
    arrangement.  Runs of digits compare by their value, alone or
    embedded after a common prefix, so 2 stands before 10; the records
    with the references 10, 2 and 1 come out as 1, 2, 10. *)
Theorem ref_sort_numeric `{JsRuntime} (st : AppState) :
  (∀ a b, localeCompareNumeric a b = numericCompare a b) →
  (sortOption st = "ref-asc" →
     filteredAndSortedOrders st ≡ₚ filteredOrders st
     ∧ StronglySorted (λ a b, numericCompare (refKey a) (refKey b) <= 0)
         (filteredAndSortedOrders st)
     ∧ (∀ i j x y,
          filteredAndSortedOrders st !! i = Some x →
          filteredAndSortedOrders st !! j = Some y →
          (i < j)%nat → ref y = None → refKey x = ""))
  ∧ (sortOption st = "ref-desc" →
     filteredAndSortedOrders st ≡ₚ filteredOrders st
     ∧ StronglySorted (λ a b, numericCompare (refKey b) (refKey a) <= 0)
         (filteredAndSortedOrders st))
  ∧ (∀ a b, compareOrders "ref-asc" a b = numericCompare (refKey a) (refKey b)
            ∧ compareOrders "ref-desc" a b = compareOrders "ref-asc" b a)
  ∧ (∀ o, ref o = None → refKey o = "" ∧ ∀ x, compareOrders "ref-asc" o x <= 0)
  ∧ (∀ d1 d2, allDigits d1 = true → d1 ≠ "" → allDigits d2 = true → d2 ≠ "" →
       numericCompare d1 d2 = comparisonToZ (N.compare (digitsValue d1) (digitsValue d2)))
  ∧ (∀ p d1 d2 q1 q2,
       endsOutsideRun p = true →
       allDigits d1 = true → d1 ≠ "" → allDigits d2 = true → d2 ≠ "" →
       startsOutsideRun q1 = true → startsOutsideRun q2 = true →
       (digitsValue d1 < digitsValue d2)%N →
       numericCompare (p +:+ d1 +:+ q1) (p +:+ d2 +:+ q2) = -1)
  ∧ numericCompare "2" "10" = -1
  ∧ map ref (orders refSortState) = [Some "10"; Some "2"; Some "1"]
  ∧ map ref (filteredAndSortedOrders refSortState) = [Some "1"; Some "2"; Some "10"]
  ∧ map ref (filteredAndSortedOrders (setSortOption "ref-desc" refSortState))
    = [Some "10"; Some "2"; Some "1"].
Proof.
  intros Hmodel.
  assert (Hasc : ∀ a b, compareOrders "ref-asc" a b = numericCompare (refKey a) (refKey b)).
  { intros a b. unfold compareOrders. simpl. apply Hmodel. }
  assert (Hdesc : ∀ a b, compareOrders "ref-desc" a b = numericCompare (refKey b) (refKey a)).
  { intros a b. unfold compareOrders. simpl. apply Hmodel. }
  split; [|split; [|split; [|split; [|split; [|split; [|split; [|split; [|split]]]]]]]].
  - intros Hopt. unfold filteredAndSortedOrders. rewrite Hopt.
    rewrite (sort_ext _ _ _ Hasc).
    rewrite sort_consistent by apply (numericCompare_ConsistentOn refKey).
    split; [apply sortBy_perm|].
    assert (Hsorted : StronglySorted (λ a b, numericCompare (refKey a) (refKey b) <= 0)
              (sortBy (λ a b, numericCompare (refKey a) (refKey b)) (filteredOrders st))).
    { apply sortBy_sorted, (ConsistentComparator_key refKey), numericCompare_consistent. }
    split; [exact Hsorted|].
    intros i j x y Hi Hj Hij Hy.
    pose proof (StronglySorted_lookup _ _ i j x y Hsorted Hi Hj Hij) as Hxy.
    simpl in Hxy. unfold refKey at 2 in Hxy. rewrite Hy in Hxy. simpl in Hxy.
    by apply numericCompare_empty_r.
  - intros Hopt. unfold filteredAndSortedOrders. rewrite Hopt.
    rewrite (sort_ext _ _ _ Hdesc).
    rewrite sort_consistent by apply (numericCompare_ConsistentOn refKey).
    split; [apply sortBy_perm|].
    apply (sortBy_sorted (λ a b, numericCompare (refKey b) (refKey a))).
    apply ConsistentComparator_flip, (ConsistentComparator_key refKey),
      numericCompare_consistent.
  - intros a b. split; [apply Hasc|]. by rewrite Hdesc, Hasc.
  - intros o Ho. assert (Hk : refKey o = "") by (unfold refKey; by rewrite Ho).
    split; [done|]. intros x. rewrite Hasc, Hk. apply numericCompare_empty_l.
  - apply numericCompare_digits.
  - apply numericCompare_embedded.
  - reflexivity.
  - reflexivity.
  - unfold filteredAndSortedOrders.
    rewrite filteredOrders_no_filter by reflexivity.
    change (sortOption refSortState) with "ref-asc".
    rewrite (sort_ext _ _ _ Hasc).
    rewrite sort_consistent by apply (numericCompare_ConsistentOn refKey).
    vm_compute. reflexivity.
  - unfold filteredAndSortedOrders.
    rewrite filteredOrders_no_filter by reflexivity.
    change (sortOption (setSortOption "ref-desc" refSortState)) with "ref-desc".
    rewrite (sort_ext _ _ _ Hdesc).
    rewrite sort_consistent by apply (numericCompare_ConsistentOn refKey).
    vm_compute. reflexivity.
Qed.

(** C6 on the runtime of the examples, whose numeric collation is the
    model: the three records come out sorted, as 1, 2, 10. *)
Lemma ref_sort_numeric_witness :
  StronglySorted (λ a b, numericCompare (refKey a) (refKey b) <= 0)
    (@filteredAndSortedOrders exampleRuntime refSortState)
  ∧ map ref (@filteredAndSortedOrders exampleRuntime refSortState)
    = [Some "1"; Some "2"; Some "10"].
Proof.
  pose proof (@ref_sort_numeric exampleRuntime refSortState (λ a b, eq_refl))
    as (Hasc & _ & _ & _ & _ & _ & _ & _ & Hexample & _).
  split; [|exact Hexample].
  exact (proj1 (proj2 (Hasc eq_refl))).
Defined.

(* ================================================================== *)
(** * Further properties of the code *)
(* ================================================================== *)

(** ** Sorting *)

Lemma insertBy_filter_out {A} (cmp : A → A → Z) (p : A → bool) (x : A) (l : list A) :
  p x = false → List.filter p (insertBy cmp x l) = List.filter p l.
Proof.
  intros Hx. induction l as [|y l IH]; simpl; [by rewrite Hx|].
  destruct (cmp x y <=? 0); simpl; [by rewrite Hx|]. by rewrite IH.
Qed.

Lemma insertBy_filter_in {A} (cmp : A → A → Z) (p : A → bool) (x : A) (l : list A) :
  p x = true → (∀ y, y ∈ l → p y = true → cmp x y <= 0) →
  List.filter p (insertBy cmp x l) = x :: List.filter p l.
Proof.
  intros Hx Hle. induction l as [|y l IH]; simpl; [by rewrite Hx|].
  destruct (cmp x y <=? 0) eqn:Hxy; simpl; [by rewrite Hx|].
  destruct (p y) eqn:Hy.
  - apply Z.leb_gt in Hxy. specialize (Hle y ltac:(left) Hy). lia.
  - apply IH. intros z Hz. apply Hle. by right.
Qed.

(** The stable sort keeps the order of the elements of a class whose
    members compare as not greater than one another. *)
Lemma sortBy_stable {A} (cmp : A → A → Z) (p : A → bool) (l : list A) :
  (∀ a b, a ∈ l → b ∈ l → p a = true → p b = true → cmp a b <= 0) →
  List.filter p (sortBy cmp l) = List.filter p l.
Proof.
  induction l as [|x l IH]; intros Htie; [done|].
  change (sortBy cmp (x :: l)) with (insertBy cmp x (sortBy cmp l)). simpl.
  assert (IH' : List.filter p (sortBy cmp l) = List.filter p l).
  { apply IH. intros a b Ha Hb. apply Htie; by right. }
  destruct (p x) eqn:Hx.
  - rewrite insertBy_filter_in; [by rewrite IH'|done|].
    intros y Hy Hpy. rewrite sortBy_perm in Hy. apply Htie; [by left|by right|done..].
  - by rewrite insertBy_filter_out, IH'.
Qed.

Lemma filter_Permutation_bool {A} (f : A → bool) (l l' : list A) :
  l ≡ₚ l' → List.filter f l ≡ₚ List.filter f l'.
Proof.
  induction 1 as [|x l l' _ IH|x y l|l l' l'' _ IH1 _ IH2]; simpl.
  - done.
  - destruct (f x); by rewrite IH.
  - destruct (f x), (f y); try done. apply Permutation_swap.
  - by rewrite IH1.
Qed.

(** A comparator that subtracts one number of each element from the
    other is consistent. *)
Lemma ConsistentOn_difference {A} (cmp : A → A → Z) (t : A → Z) (l : list A) :
  (∀ a b, a ∈ l → b ∈ l → cmp a b = t a - t b) → ConsistentOn cmp l.
Proof.
  intros Hcmp. split; [|split; [|split; [|split]]].
  - intros a Ha. rewrite Hcmp by done. lia.
  - intros a b Ha Hb. rewrite !Hcmp by done. lia.
  - intros a b c Ha Hb Hc. rewrite !Hcmp by done. lia.
  - intros a b c Ha Hb Hc. rewrite !Hcmp by done. lia.
  - intros a b c Ha Hb Hc. rewrite !Hcmp by done. lia.
Qed.

(** A consistent comparator orders any two elements of the list,
    transitively. *)
Lemma ConsistentOn_total {A} (cmp : A → A → Z) (l : list A) :
  ConsistentOn cmp l →
  (∀ a b, a ∈ l → b ∈ l → cmp a b <= 0 ∨ cmp b a <= 0)
  ∧ (∀ a b c, a ∈ l → b ∈ l → c ∈ l → cmp a b <= 0 → cmp b c <= 0 → cmp a c <= 0).
Proof.
  intros (Hrefl & Hsym & Heq & Hlt & Hgt).
  assert (Hanti : ∀ a b, a ∈ l → b ∈ l → cmp a b < 0 → cmp b a > 0).
  { intros a b Ha Hb Hab.
    destruct (Z.lt_trichotomy (cmp b a) 0) as [Hba|[Hba|Hba]]; [| |lia].
    - pose proof (Hlt a b a Ha Hb Ha Hab Hba). pose proof (Hrefl a Ha). lia.
    - pose proof (Hsym b a Hb Ha Hba). lia. }
  split.
  - intros a b Ha Hb. destruct (Z_le_gt_dec (cmp a b) 0) as [|Hab]; [by left|right].
    destruct (Z_le_gt_dec (cmp b a) 0) as [|Hba]; [done|].
    pose proof (Hgt a b a Ha Hb Ha Hab Hba). pose proof (Hrefl a Ha). lia.
  - intros a b c Ha Hb Hc Hab Hbc.
    destruct (Z_le_gt_dec (cmp a c) 0) as [|Hac]; [done|].
    destruct (Z.eq_dec (cmp a b) 0) as [Hab0|Hab0],
             (Z.eq_dec (cmp b c) 0) as [Hbc0|Hbc0].
    + pose proof (Heq a b c Ha Hb Hc Hab0 Hbc0). lia.
    + pose proof (Hanti b c Hb Hc ltac:(lia)) as Hcb.
      pose proof (Hgt a c b Ha Hc Hb Hac Hcb). lia.
    + pose proof (Hanti a b Ha Hb ltac:(lia)) as Hba.
      pose proof (Hgt b a c Hb Ha Hc Hba Hac). lia.
    + pose proof (Hlt a b c Ha Hb Hc ltac:(lia) ltac:(lia)). lia.
Qed.

Lemma insertBy_sorted_on {A} (cmp : A → A → Z) (l0 : list A) (x : A) (l : list A) :
  ConsistentOn cmp l0 → x ∈ l0 → (∀ y, y ∈ l → y ∈ l0) →
  StronglySorted (λ a b, cmp a b <= 0) l →
  StronglySorted (λ a b, cmp a b <= 0) (insertBy cmp x l).
Proof.
  intros [Htotal Htrans]%ConsistentOn_total Hx Hsub Hsorted.
  induction Hsorted as [|y l Hl IH Hy]; simpl.
  - repeat constructor.
  - assert (Hy0 : y ∈ l0) by (apply Hsub; by left).
    assert (Hsub' : ∀ z, z ∈ l → z ∈ l0) by (intros z Hz; apply Hsub; by right).
    destruct (cmp x y <=? 0) eqn:Hxy.
    + apply Z.leb_le in Hxy. constructor.
      * by constructor.
      * constructor; [done|]. rewrite Forall_forall in Hy. apply Forall_forall.
        intros z Hz. apply (Htrans x y z); auto.
    + apply Z.leb_gt in Hxy. constructor; [by apply IH|].
      rewrite insertBy_perm. constructor; [|done].
      destruct (Htotal x y Hx Hy0); [lia|done].
Qed.

(** For a consistent comparator the stable sort gives a list in which
    every element stands before the elements that are not smaller. *)
Lemma sortBy_sorted_on {A} (cmp : A → A → Z) (l : list A) :
  ConsistentOn cmp l → StronglySorted (λ a b, cmp a b <= 0) (sortBy cmp l).
Proof.
  intros Hc.
  assert (Hgen : ∀ l', (∀ y, y ∈ l' → y ∈ l) →
            StronglySorted (λ a b, cmp a b <= 0) (sortBy cmp l')).
  { induction l' as [|x l' IH]; intros Hsub; [constructor|].
    change (sortBy cmp (x :: l')) with (insertBy cmp x (sortBy cmp l')).
    apply (insertBy_sorted_on cmp l); [done|apply Hsub; by left| |].
    - intros y Hy. rewrite sortBy_perm in Hy. apply Hsub. by right.
    - apply IH. intros y Hy. apply Hsub. by right. }
  by apply Hgen.
Qed.

Lemma compareOrders_sortKey `{JsRuntime} (opt : string) (a b a' b' : Order) :
  sortKey opt a = sortKey opt a' → sortKey opt b = sortKey opt b' →
  compareOrders opt a b = compareOrders opt a' b'.
Proof.
  unfold sortKey, compareOrders, refKey.
  repeat (destruct (String.eqb opt _)); by intros -> ->.
Qed.

(** The comparator of the two date modes; every option that is not one
    of the four others sorts by date. *)
Lemma compareOrders_date `{JsRuntime} (opt : string) (a b : Order) :
  opt ∉ ["name-asc"; "name-desc"; "ref-asc"; "ref-desc"] →
  compareOrders opt a b =
    if String.eqb opt "date-asc"
    then nanToZero (subOrNaN (getTime (date a)) (getTime (date b)))
    else nanToZero (subOrNaN (getTime (date b)) (getTime (date a))).
Proof.
  rewrite !not_elem_of_cons. intros (H1 & H2 & H3 & H4 & _).
  apply String.eqb_neq in H1, H2, H3, H4.
  unfold compareOrders. by rewrite H1, H2, H3, H4.
Qed.

Lemma compareOrders_date_ConsistentOn `{JsRuntime} (opt : string) (l : list Order) :
  opt ∉ ["name-asc"; "name-desc"; "ref-asc"; "ref-desc"] →
  (∀ x, x ∈ l → is_Some (getTime (date x))) →
  ConsistentOn (compareOrders opt) l.
Proof.
  intros Hopt Hvalid.
  apply (ConsistentOn_difference _
           (λ x, if String.eqb opt "date-asc" then timeOf x else - timeOf x)).
  intros a b Ha Hb. rewrite compareOrders_date by done.
  destruct (Hvalid a Ha) as [ta Hta]. destruct (Hvalid b Hb) as [tb Htb].
  unfold timeOf. rewrite Hta, Htb. destruct (String.eqb opt "date-asc"); simpl; lia.
Qed.

(** X1. When the comparator of the sort option is consistent on the
    filtered orders, the projection is their stable sort: every order
    stands before the orders that are not smaller, and orders with the
    same sort key, as well as orders that compare as equal to an order of
    the list, keep after the sort the order they had after the filter.  In
    the date modes the comparator is consistent when the date of every
    filtered order is valid.  It is not consistent when an order with an
    invalid date is filtered together with two orders of different valid
    dates: the order of the projection is then the engine's, and orders
    of one date need not keep their order. *)
Theorem projection_sort_stable `{JsRuntime} (st : AppState) (o : Order) :
  let cmp := compareOrders (sortOption st) in
  let F := filteredOrders st in
  let L := filteredAndSortedOrders st in
  let sameKey := λ o', String.eqb (sortKey (sortOption st) o') (sortKey (sortOption st) o) in
  let tied := λ o', cmp o' o =? 0 in
  let byDate := sortOption st ∉ ["name-asc"; "name-desc"; "ref-asc"; "ref-desc"] in
  (ConsistentOn cmp F →
     L = sortBy cmp F
     ∧ StronglySorted (λ a b, cmp a b <= 0) L
     ∧ List.filter sameKey L = List.filter sameKey F
     ∧ (o ∈ F → List.filter tied L = List.filter tied F))
  ∧ (byDate → (∀ x, x ∈ F → is_Some (getTime (date x))) → ConsistentOn cmp F)
  ∧ (byDate →
     ∀ a b c, a ∈ F → b ∈ F → c ∈ F →
       getTime (date a) = None →
       is_Some (getTime (date b)) → is_Some (getTime (date c)) →
       getTime (date b) ≠ getTime (date c) →
       ¬ ConsistentOn cmp F).
Proof.
  cbv zeta. split; [|split].
  - intros Hc.
    assert (HL : filteredAndSortedOrders st
                 = sortBy (compareOrders (sortOption st)) (filteredOrders st))
      by (by apply sort_consistent).
    split; [exact HL|]. rewrite HL.
    split; [by apply sortBy_sorted_on|].
    destruct Hc as (Hrefl & Hsym & Htrans & _). split.
    + apply sortBy_stable. intros a b Ha Hb Hka Hkb.
      apply String.eqb_eq in Hka, Hkb.
      rewrite (compareOrders_sortKey _ a b a a); [|done|congruence].
      by rewrite Hrefl.
    + intros Ho. apply sortBy_stable. intros a b Ha Hb Hta Htb.
      apply Z.eqb_eq in Hta, Htb.
      rewrite (Htrans a o b); [lia|done..|by apply Hsym].
  - intros Hopt Hvalid. by apply compareOrders_date_ConsistentOn.
  - intros Hopt a b c Ha Hb Hc Hna [tb Htb] [tc Htc] Hne (_ & _ & Htrans & _).
    specialize (Htrans b a c Hb Ha Hc).
    rewrite !compareOrders_date in Htrans by done.
    rewrite Hna, Htb, Htc in Htrans.
    assert (tb ≠ tc) by congruence.
    destruct (String.eqb (sortOption st) "date-asc"); simpl in Htrans; lia.
Qed.


Lemma exampleRuntime_valid_dates (l : list Order) :
  forallb (λ o, bool_decide (is_Some (@getTime exampleRuntime (date o)))) l = true →
  ∀ x, x ∈ l → is_Some (@getTime exampleRuntime (date x)).
Proof.
  intros Hall x Hx. rewrite forallb_forall in Hall.
  apply list_elem_of_In, Hall in Hx. by apply bool_decide_eq_true in Hx.
Qed.

(** X1 on the runtime of the examples: the dates of the three orders are
    valid, and the two orders of 2 March keep their order under the date
    sort. *)
Lemma projection_sort_stable_witness :
  map id (List.filter (λ o', String.eqb (date o') "2024-03-02")
            (@filteredAndSortedOrders exampleRuntime threeOrdersState))
  = ["b"; "c"].
Proof.
  pose proof (@projection_sort_stable exampleRuntime threeOrdersState
                (mkOrder "c" "Carl" None "2024-03-02" expense pending))
    as (Hstable & Hdates & _).
  cbv zeta in Hstable, Hdates.
  assert (Hc : ConsistentOn
                 (@compareOrders exampleRuntime (sortOption threeOrdersState))
                 (@filteredOrders exampleRuntime threeOrdersState)).
  { apply Hdates.
    - apply (bool_decide_unpack _). vm_compute. exact I.
    - apply exampleRuntime_valid_dates. vm_compute. reflexivity. }
  destruct (Hstable Hc) as (_ & _ & Hs & _).
  etrans; [exact (f_equal (map id) Hs) | vm_compute; reflexivity].
Defined.

(** X2. The sort option decides the order only: under any two options
    the projection holds the same orders, and so does each of the two
    tables.  An option that is none of the five named ones sorts as
    [date-desc] does. *)
Theorem sort_option_reorders_only `{JsRuntime} (opt1 opt2 : string) (st : AppState) :
  filteredAndSortedOrders (setSortOption opt1 st)
    ≡ₚ filteredAndSortedOrders (setSortOption opt2 st)
  ∧ incomeOrders (setSortOption opt1 st) ≡ₚ incomeOrders (setSortOption opt2 st)
  ∧ expenseOrders (setSortOption opt1 st) ≡ₚ expenseOrders (setSortOption opt2 st)
  ∧ (opt1 ≠ "date-asc" → opt1 ≠ "name-asc" → opt1 ≠ "name-desc" →
     opt1 ≠ "ref-asc" → opt1 ≠ "ref-desc" →
     filteredAndSortedOrders (setSortOption opt1 st)
     = filteredAndSortedOrders (setSortOption "date-desc" st)).
Proof.
  assert (Hperm : filteredAndSortedOrders (setSortOption opt1 st)
                  ≡ₚ filteredAndSortedOrders (setSortOption opt2 st)).
  { unfold filteredAndSortedOrders. rewrite !sort_perm. reflexivity. }
  split; [exact Hperm|].
  split; [by apply filter_Permutation_bool|].
  split; [by apply filter_Permutation_bool|].
  intros H1 H2 H3 H4 H5. unfold filteredAndSortedOrders.
  apply sort_ext. intros a b. unfold compareOrders. simpl.
  apply String.eqb_neq in H1, H2, H3, H4, H5.
  by rewrite H1, H2, H3, H4, H5.
Qed.

(** ** Filters *)

(** X3. After the button that clears the filters every order of the
    record set is on the page: the filter keeps the whole list, in its
    order, and the projection is that list sorted by [date-desc].  The
    record set and the selection are as before. *)
Theorem clearFilters_shows_all `{JsRuntime} (st : AppState) :
  filteredOrders (clearFilters st) = orders st
  ∧ filteredAndSortedOrders (clearFilters st)
    = sort (compareOrders "date-desc") (orders st)
  ∧ (ConsistentOn (compareOrders "date-desc") (orders st) →
     filteredAndSortedOrders (clearFilters st)
     = sortBy (compareOrders "date-desc") (orders st))
  ∧ filteredAndSortedOrders (clearFilters st) ≡ₚ orders st
  ∧ incomeOrders (clearFilters st) ++ expenseOrders (clearFilters st) ≡ₚ orders st
  ∧ orders (clearFilters st) = orders st
  ∧ selectedOrders (clearFilters st) = selectedOrders st.
Proof.
  assert (Hall : filteredOrders (clearFilters st) = orders st).
  { by apply (filteredOrders_no_filter (clearFilters st)). }
  assert (Hsort : filteredAndSortedOrders (clearFilters st)
                  = sort (compareOrders "date-desc") (orders st)).
  { unfold filteredAndSortedOrders. by rewrite Hall. }
  split; [exact Hall|]. split; [exact Hsort|].
  split; [rewrite Hsort; apply sort_consistent|].
  split; [rewrite Hsort; apply sort_perm|].
  split; [|done].
  rewrite (Interleave_perm _ _ (filteredAndSortedOrders (clearFilters st))).
  - rewrite Hsort. apply sort_perm.
  - apply filter_Interleave. intros o. by destruct (type o).
Qed.

Lemma insertBy_ext_in {A} (cmp1 cmp2 : A → A → Z) (x : A) (l : list A) :
  (∀ y, y ∈ l → cmp1 x y = cmp2 x y) → insertBy cmp1 x l = insertBy cmp2 x l.
Proof.
  induction l as [|y l IH]; intros Hext; simpl; [done|].
  rewrite (Hext y) by left. destruct (cmp2 x y <=? 0); [done|].
  rewrite IH; [done|]. intros z Hz. apply Hext. by right.
Qed.

Lemma sortBy_ext_in {A} (cmp1 cmp2 : A → A → Z) (l : list A) :
  (∀ a b, a ∈ l → b ∈ l → cmp1 a b = cmp2 a b) → sortBy cmp1 l = sortBy cmp2 l.
Proof.
  induction l as [|x l IH]; intros Hext; [done|].
  change (insertBy cmp1 x (sortBy cmp1 l) = insertBy cmp2 x (sortBy cmp2 l)).
  rewrite IH by (intros a b Ha Hb; apply Hext; by right).
  apply insertBy_ext_in. intros y Hy. rewrite sortBy_perm in Hy.
  apply Hext; [by left | by right].
Qed.

Lemma filter_StronglySorted {A} (R : A → A → Prop) (f : A → bool) (l : list A) :
  StronglySorted R l → StronglySorted R (List.filter f l).
Proof.
  induction 1 as [|x l _ IH Hx]; simpl; [constructor|].
  destruct (f x); [|done]. constructor; [done|].
  rewrite Forall_forall in Hx. apply Forall_forall. intros y Hy.
  apply list_elem_of_In, filter_In in Hy as [Hy _]. by apply Hx, list_elem_of_In.
Qed.

Lemma StronglySorted_mono {A} (R R' : A → A → Prop) (l : list A) :
  (∀ a b, R a b → R' a b) → StronglySorted R l → StronglySorted R' l.
Proof.
  intros HR. induction 1 as [|x l _ IH Hx]; constructor; [done|].
  eapply Forall_impl; [exact Hx|]. intros y. apply HR.
Qed.

(** X4. Under a status filter and the sort [date-desc], when the dates
    of the record set are valid, each of the two tables holds orders of
    the filtered status and of its own type only, newest first; with no
    other filter, every order of that status is in one of the tables. *)
Theorem status_filter_tables `{JsRuntime} (st : AppState) (s : OrderStatus) :
  statusFilter st = Some s →
  sortOption st = "date-desc" →
  (∀ o, o ∈ orders st → is_Some (getTime (date o))) →
  Forall (λ o, status o = s ∧ type o = income) (incomeOrders st)
  ∧ Forall (λ o, status o = s ∧ type o = expense) (expenseOrders st)
  ∧ StronglySorted (λ a b, timeOf b <= timeOf a) (incomeOrders st)
  ∧ StronglySorted (λ a b, timeOf b <= timeOf a) (expenseOrders st)
  ∧ (searchTerm st = "" → dateFilter st = "" →
     ∀ o, o ∈ orders st → status o = s →
          o ∈ incomeOrders st ∨ o ∈ expenseOrders st).
Proof.
  intros Hs Hopt Hvalid.
  assert (Hin : ∀ o, o ∈ filteredAndSortedOrders st ↔
                     o ∈ orders st ∧ matchesOrder st o = true).
  { intros o. unfold filteredAndSortedOrders. rewrite sort_perm.
    unfold filteredOrders. by rewrite !list_elem_of_In, filter_In. }
  assert (Hstatus : ∀ o, matchesOrder st o = true → status o = s).
  { intros o Ho. apply matchesOrder_spec in Ho as (_ & _ & [Hn|Hsome]); congruence. }
  assert (Hagree : ∀ a b, a ∈ filteredOrders st → b ∈ filteredOrders st →
            compareOrders "date-desc" a b = timeOf b - timeOf a).
  { intros a b Ha Hb. unfold filteredOrders in Ha, Hb.
    apply list_elem_of_In, filter_In in Ha as [Ha _].
    apply list_elem_of_In, filter_In in Hb as [Hb _].
    apply list_elem_of_In, Hvalid in Ha as [ta Hta].
    apply list_elem_of_In, Hvalid in Hb as [tb Htb].
    unfold compareOrders, timeOf. simpl. by rewrite Hta, Htb. }
  assert (Hconsistent : ConsistentOn (compareOrders "date-desc") (filteredOrders st)).
  { apply (ConsistentOn_difference _ (λ x, - timeOf x)).
    intros a b Ha Hb. rewrite Hagree by done. lia. }
  assert (Hsorted : StronglySorted (λ a b, timeOf b <= timeOf a)
                      (filteredAndSortedOrders st)).
  { unfold filteredAndSortedOrders. rewrite Hopt.
    rewrite sort_consistent by exact Hconsistent.
    rewrite (sortBy_ext_in _ (λ a b, timeOf b - timeOf a)) by exact Hagree.
    assert (Hc : ConsistentComparator (λ a b : Order, timeOf b - timeOf a))
      by (split; intros; lia).
    eapply StronglySorted_mono; [|apply (sortBy_sorted _ _ Hc)].
    intros a b. simpl. lia. }
  split; [|split; [|split; [|split]]].
  - apply Forall_forall. intros o Ho. unfold incomeOrders in Ho.
    apply list_elem_of_In, filter_In in Ho as [Ho Ht].
    apply list_elem_of_In, Hin in Ho as [_ Ho]. apply OrderType_eqb_eq in Ht. auto.
  - apply Forall_forall. intros o Ho. unfold expenseOrders in Ho.
    apply list_elem_of_In, filter_In in Ho as [Ho Ht].
    apply list_elem_of_In, Hin in Ho as [_ Ho]. apply OrderType_eqb_eq in Ht. auto.
  - by apply filter_StronglySorted.
  - by apply filter_StronglySorted.
  - intros Hsearch Hdate o Ho Hso.
    assert (Hm : matchesOrder st o = true).
    { apply matchesOrder_spec. repeat split; [by left|by left|right; congruence]. }
    assert (Hp : o ∈ filteredAndSortedOrders st) by (apply Hin; auto).
    unfold incomeOrders, expenseOrders. rewrite !list_elem_of_In, !filter_In.
    apply list_elem_of_In in Hp. destruct (type o); simpl; auto.
Qed.

(** X4 on the three orders with the filter [pending]: one pending order
    in each table. *)
Lemma status_filter_tables_witness :
  Forall (λ o, status o = pending ∧ type o = income)
    (@incomeOrders exampleRuntime pendingFilterState)
  ∧ map id (@incomeOrders exampleRuntime pendingFilterState) = ["a"]
  ∧ map id (@expenseOrders exampleRuntime pendingFilterState) = ["c"].
Proof.
  split; [|split; vm_compute; reflexivity].
  refine (proj1 (@status_filter_tables exampleRuntime pendingFilterState pending
                   eq_refl eq_refl _)).
  intros o Ho.
  assert (Hall : forallb (λ o, bool_decide (is_Some (@getTime exampleRuntime (date o))))
                   (orders pendingFilterState) = true) by (vm_compute; reflexivity).
  rewrite forallb_forall in Hall. apply list_elem_of_In, Hall in Ho.
  by apply bool_decide_eq_true in Ho.
Defined.

(** ** Selection: the header box and the row boxes *)

(** X5. A click on the box in the head of a table with rows flips that
    box: all rows are selected afterwards when they were not all
    selected before, and none is when they all were.  The click leaves
    the table and every id outside it as they were, and on a table
    without rows it changes nothing. *)
Theorem handleSelectAll_header_box `{JsRuntime} (ty : OrderType) (st : AppState) :
  let V := ordersToSelect ty st in
  let st' := handleSelectAll ty st in
  ordersToSelect ty st' = V
  ∧ (∀ x, x ∉ orderIds V → (x ∈ selectedOrders st' ↔ x ∈ selectedOrders st))
  ∧ (V ≠ [] →
     allVisibleSelected V (selectedOrders st')
     = negb (allVisibleSelected V (selectedOrders st)))
  ∧ (V = [] → st' = st ∧ allVisibleSelected V (selectedOrders st) = false).
Proof.
  cbv zeta. split; [apply ordersToSelect_setSelectedOrders|].
  pose proof (handleSelectAll_selection ty st) as Hsel.
  split; [|split].
  - intros x Hx. rewrite Hsel. case_bool_decide; set_solver.
  - intros Hne. unfold allVisibleSelected.
    assert (Hlen : (0 <? length (ordersToSelect ty st))%nat = true).
    { destruct (ordersToSelect ty st); [done|reflexivity]. }
    rewrite Hlen, !andb_true_l.
    assert (Hid : ∃ i, i ∈ orderIds (ordersToSelect ty st)).
    { destruct (ordersToSelect ty st) as [|o V]; [done|].
      exists (id o). unfold orderIds. simpl. set_solver. }
    destruct Hid as [i Hi].
    set (S' := selectedOrders (handleSelectAll ty st)) in *.
    destruct (decide (orderIds (ordersToSelect ty st) ⊆ selectedOrders st)) as [Hsub|Hn].
    + rewrite bool_decide_eq_true_2 in Hsel by done.
      rewrite (proj2 (every_selected_subseteq (selectedOrders st) _) Hsub). simpl.
      apply not_true_is_false. intros Hafter.
      apply every_selected_subseteq in Hafter. rewrite Hsel in Hafter. set_solver.
    + rewrite bool_decide_eq_false_2 in Hsel by done.
      assert (Hbefore : forallb (λ o, bool_decide (id o ∈ selectedOrders st))
                          (ordersToSelect ty st) = false).
      { apply not_true_is_false. intros Hb. by apply every_selected_subseteq in Hb. }
      rewrite Hbefore. simpl.
      apply every_selected_subseteq. rewrite Hsel. set_solver.
  - intros Hempty. split.
    + unfold handleSelectAll. rewrite Hempty. simpl. apply AppState_eta.
    + unfold allVisibleSelected. by rewrite Hempty.
Qed.

Lemma handleSelectOrder_selection (x : string) (st : AppState) :
  selectedOrders (handleSelectOrder x st) =
    if bool_decide (x ∈ selectedOrders st)
    then selectedOrders st ∖ {[x]} else selectedOrders st ∪ {[x]}.
Proof. reflexivity. Qed.

(** X6. Clicks on the boxes of two rows give the same state in either
    order; a click on a row that is not selected makes the selection one
    larger, a click on a selected row one smaller. *)
Theorem handleSelectOrder_commutes (st : AppState) (x y : string) :
  handleSelectOrder x (handleSelectOrder y st)
  = handleSelectOrder y (handleSelectOrder x st)
  ∧ (x ∉ selectedOrders st →
     size (selectedOrders (handleSelectOrder x st)) = S (size (selectedOrders st)))
  ∧ (x ∈ selectedOrders st →
     size (selectedOrders st) = S (size (selectedOrders (handleSelectOrder x st)))).
Proof.
  split; [|split].
  - change (setSelectedOrders (selectedOrders (handleSelectOrder x (handleSelectOrder y st))) st
            = setSelectedOrders
                (selectedOrders (handleSelectOrder y (handleSelectOrder x st))) st).
    f_equal. rewrite !handleSelectOrder_selection. apply set_eq. intros z.
    destruct (decide (x = y)) as [->|Hxy]; [done|].
    repeat case_bool_decide; set_solver.
  - intros Hx. rewrite handleSelectOrder_selection, bool_decide_eq_false_2 by done.
    rewrite size_union by set_solver. rewrite size_singleton. lia.
  - intros Hx. rewrite handleSelectOrder_selection, bool_decide_eq_true_2 by done.
    assert (Hsplit : selectedOrders st = selectedOrders st ∖ {[x]} ∪ {[x]}).
    { apply set_eq. intros z. destruct (decide (z = x)); set_solver. }
    rewrite Hsplit at 1. rewrite size_union by set_solver. rewrite size_singleton. lia.
Qed.

Lemma foldl_handleSelectOrder (l : list Order) (st : AppState) :
  foldl (λ acc o, handleSelectOrder (id o) acc) st l
  = setSelectedOrders
      (foldl (λ S o, if bool_decide (id o ∈ S) then S ∖ {[id o]} else S ∪ {[id o]})
             (selectedOrders st) l) st.
Proof.
  revert st. induction l as [|o l IH]; intros st; simpl.
  - symmetry. apply AppState_eta.
  - by rewrite IH.
Qed.

Lemma foldl_toggle_selected (l : list Order) (S : gset string) :
  NoDup (map id l) → orderIds l ⊆ S →
  foldl (λ S o, if bool_decide (id o ∈ S) then S ∖ {[id o]} else S ∪ {[id o]}) S l
  = S ∖ orderIds l.
Proof.
  unfold orderIds. revert S. induction l as [|o l IH]; intros S Hnd Hsub; simpl.
  - set_solver.
  - apply NoDup_cons in Hnd as [Ho Hnd]. simpl in Hsub.
    rewrite bool_decide_eq_true_2 by set_solver.
    rewrite IH; [set_solver|done|].
    intros x Hx. apply elem_of_difference. split; [set_solver|].
    apply elem_of_list_to_set in Hx. set_solver.
Qed.

Lemma foldl_toggle_unselected (l : list Order) (S : gset string) :
  NoDup (map id l) → orderIds l ## S →
  foldl (λ S o, if bool_decide (id o ∈ S) then S ∖ {[id o]} else S ∪ {[id o]}) S l
  = S ∪ orderIds l.
Proof.
  unfold orderIds. revert S. induction l as [|o l IH]; intros S Hnd Hdis; simpl.
  - set_solver.
  - apply NoDup_cons in Hnd as [Ho Hnd]. simpl in Hdis.
    rewrite bool_decide_eq_false_2 by set_solver.
    rewrite IH; [set_solver|done|].
    intros x Hx Hx'. apply elem_of_list_to_set in Hx.
    apply elem_of_union in Hx' as [Hx'|Hx']; [set_solver|].
    apply elem_of_singleton in Hx'. subst x. done.
Qed.

(** X7. On a table whose rows have different ids and are all selected,
    or all not selected, clicking the box of every row, one after the
    other, gives the state that one click on the box in the head gives. *)
Theorem row_boxes_as_header_box `{JsRuntime} (ty : OrderType) (st : AppState) :
  let V := ordersToSelect ty st in
  NoDup (map id V) →
  (orderIds V ⊆ selectedOrders st ∨ orderIds V ## selectedOrders st) →
  foldl (λ acc o, handleSelectOrder (id o) acc) st V = handleSelectAll ty st.
Proof.
  intros V Hnd Hcase. rewrite foldl_handleSelectOrder.
  change (handleSelectAll ty st)
    with (setSelectedOrders (selectedOrders (handleSelectAll ty st)) st).
  f_equal. rewrite handleSelectAll_selection. fold V.
  destruct (decide (orderIds V ⊆ selectedOrders st)) as [Hsub|Hn].
  - rewrite bool_decide_eq_true_2 by done. by apply foldl_toggle_selected.
  - rewrite bool_decide_eq_false_2 by done. destruct Hcase as [?|Hdis]; [done|].
    by apply foldl_toggle_unselected.
Qed.

(** X7 on the page with two income orders, both selected. *)
Lemma row_boxes_as_header_box_witness :
  foldl (λ acc o, handleSelectOrder (id o) acc) fullSelectionState
    (@ordersToSelect exampleRuntime income fullSelectionState)
  = @handleSelectAll exampleRuntime income fullSelectionState.
Proof.
  apply (@row_boxes_as_header_box exampleRuntime income fullSelectionState).
  - apply (bool_decide_unpack _). vm_compute. exact I.
  - left. apply (bool_decide_unpack _). vm_compute. exact I.
Defined.

(** ** The dialog of the batch delete *)

Lemma setConfirmModal_None_id (st : AppState) :
  confirmModal st = None → setConfirmModal None st = st.
Proof. intros Hm. unfold setConfirmModal. rewrite <- Hm. apply AppState_eta. Qed.

Lemma handleDeleteSelected_opens (st : AppState) :
  selectedOrders st ≠ ∅ →
  ∃ m, handleDeleteSelected st = setConfirmModal (Some m) st
       ∧ capturedSelection m = selectedOrders st.
Proof.
  intros Hs. unfold handleDeleteSelected.
  destruct (size (selectedOrders st) =? 0)%nat eqn:Hz.
  - apply Nat.eqb_eq, size_empty_iff in Hz. apply leibniz_equiv in Hz. done.
  - by eexists.
Qed.

(** X8. With an empty selection the delete button opens no dialog and
    changes nothing.  With a selection it opens the dialog, which holds
    the selection of that moment, and changes nothing else.  Cancelling
    gives back the state before the button, and nothing has been sent to
    the store. *)
Theorem delete_dialog_open_cancel (st : AppState) :
  (selectedOrders st = ∅ → handleDeleteSelected st = st)
  ∧ (selectedOrders st ≠ ∅ →
     ∃ m, handleDeleteSelected st = setConfirmModal (Some m) st
          ∧ capturedSelection m = selectedOrders st)
  ∧ (confirmModal st = None →
     runHandler onCancel (handleDeleteSelected st)
     = (Normal (), {| app := st; trace := [] |})).
Proof.
  split; [|split].
  - intros Hs. unfold handleDeleteSelected. by rewrite Hs.
  - apply handleDeleteSelected_opens.
  - intros Hm. unfold handleDeleteSelected.
    destruct (size (selectedOrders st) =? 0)%nat;
      unfold runHandler, onCancel, setState; cbn [app trace].
    + by rewrite setConfirmModal_None_id.
    + change (setConfirmModal None (setConfirmModal ?m st))
        with (setConfirmModal None st).
      by rewrite setConfirmModal_None_id.
Qed.

(** X9. With a selection and a store that accepts the batch, the delete
    button followed by the confirm button sends one batch, which holds
    every selected id once and no other id, and then empties the
    selection, shows one success message and no error message, and
    closes the dialog; the delete button is no longer shown.  The record
    set is not touched by the handler. *)
Theorem confirmDelete_success `{Network} (st : AppState) :
  selectedOrders st ≠ ∅ →
  batchCommit (elements (selectedOrders st)) = None →
  let done := {| message := "تم حذف الأوردرات المحددة بنجاح."; toastType := success |} in
  let '(completion, w) := confirmDelete (handleDeleteSelected st) in
  completion = Normal ()
  ∧ (∃ ids, trace w = [BatchCommit ids; ShowToast done]
            ∧ NoDup ids ∧ ∀ x, x ∈ ids ↔ x ∈ selectedOrders st)
  ∧ toastsOf success (trace w) = [done]
  ∧ toastsOf error (trace w) = []
  ∧ selectedOrders (app w) = ∅
  ∧ confirmModal (app w) = None
  ∧ orders (app w) = orders st
  ∧ displayedSelectionCount (app w) = None.
Proof.
  intros Hne Hcommit done.
  destruct (handleDeleteSelected_opens st Hne) as (m & Hopen & Hcap).
  assert (Hm : confirmModal (handleDeleteSelected st) = Some m) by by rewrite Hopen.
  rewrite <- Hcap in Hcommit.
  rewrite (confirmDelete_commit_succeeds _ m Hm Hcommit). cbv zeta.
  split; [done|]. split.
  { exists (elements (capturedSelection m)). split; [done|]. split.
    - apply NoDup_elements.
    - intros x. by rewrite elem_of_elements, Hcap. }
  split; [done|]. split; [done|]. split; [done|]. split; [done|].
  split; [by rewrite Hopen|].
  unfold displayedSelectionCount.
  cbn [app selectedOrders setConfirmModal setToast setSelectedOrders].
  rewrite size_empty. by rewrite andb_false_r.
Qed.

(** X9 on the page with one of two orders selected. *)
Lemma confirmDelete_success_witness :
  let '(completion, w) :=
    @confirmDelete workingNetwork (handleDeleteSelected partialSelectionState) in
  completion = Normal ()
  ∧ selectedOrders (app w) = ∅
  ∧ confirmModal (app w) = None.
Proof.
  pose proof (@confirmDelete_success workingNetwork partialSelectionState) as Hs.
  cbv zeta in Hs.
  destruct (@confirmDelete workingNetwork (handleDeleteSelected partialSelectionState))
    as [completion w].
  destruct Hs as (Hc & _ & _ & _ & Hsel & Hm & _); [|reflexivity|auto].
  apply (proj1 (bool_decide_eq_false _)). vm_compute. reflexivity.
Defined.

(** ** Arabic numerals *)

Lemma isDigit_arabicDigit_byte (c : ascii) :
  isDigit c = true → isDigit (ascii_of_N (N_of_ascii c + 112)) = false.
Proof.
  unfold isDigit. intros Hc. apply andb_true_iff in Hc as [H1 H2].
  apply N.leb_le in H1. apply N.leb_le in H2. rewrite N_ascii_embedding by lia.
  apply andb_false_iff. right. apply N.leb_gt. lia.
Qed.

Lemma toArabicNumerals_app (s t : string) :
  toArabicNumerals (s +:+ t) = toArabicNumerals s +:+ toArabicNumerals t.
Proof.
  induction s as [|c s IH]; [done|]. simpl.
  destruct (isDigit c); simpl; by rewrite IH.
Qed.

Lemma toArabicNumerals_no_digit (s : string) :
  allDigitFree s = true → toArabicNumerals s = s.
Proof.
  induction s as [|c s IH]; [done|]. simpl. intros Hs.
  apply andb_true_iff in Hs as [Hc Hs]. apply negb_true_iff in Hc.
  by rewrite Hc, IH.
Qed.

Lemma toArabicNumerals_digit_free (s : string) :
  allDigitFree (toArabicNumerals s) = true.
Proof.
  induction s as [|c s IH]; [done|]. cbn [toArabicNumerals].
  destruct (isDigit c) eqn:Hc.
  - unfold arabicDigit, str1. cbn [String.append allDigitFree].
    rewrite (isDigit_arabicDigit_byte c Hc), IH. reflexivity.
  - cbn [allDigitFree]. by rewrite Hc, IH.
Qed.

(** X10. [toArabicNumerals] leaves no ASCII digit in its result; it
    keeps a text without ASCII digits as it is, so applying it twice is
    applying it once; it works piece by piece on a concatenation; and a
    reference that is absent or empty is shown as [N/A]. *)
Theorem toArabicNumerals_spec (s t : string) :
  allDigitFree (toArabicNumerals s) = true
  ∧ (allDigitFree s = true → toArabicNumerals s = s)
  ∧ toArabicNumerals (toArabicNumerals s) = toArabicNumerals s
  ∧ toArabicNumerals (s +:+ t) = toArabicNumerals s +:+ toArabicNumerals t
  ∧ (∀ o, truthy (ref o) = false → tableRefCell o = "N/A")
  ∧ (∀ o r, ref o = Some r → truthy (ref o) = true →
       tableRefCell o = toArabicNumerals r).
Proof.
  split; [apply toArabicNumerals_digit_free|].
  split; [apply toArabicNumerals_no_digit|].
  split; [apply toArabicNumerals_no_digit, toArabicNumerals_digit_free|].
  split; [apply toArabicNumerals_app|].
  split.
  - intros o Ho. unfold tableRefCell, orElse. destruct (ref o) as [r|]; [|done].
    simpl in Ho. apply negb_false_iff in Ho. by rewrite Ho.
  - intros o r Hr Ht. unfold tableRefCell, orElse. rewrite Hr in *.
    simpl in Ht. apply negb_true_iff in Ht. by rewrite Ht.
Qed.

(** ** Fields of the CSV file *)

Lemma doubleQuotes_inj (s t : string) : doubleQuotes s = doubleQuotes t → s = t.
Proof.
  revert t. induction s as [|c s IH]; intros [|d t]; simpl.
  - done.
  - destruct (Ascii.eqb d quoteChar); discriminate.
  - destruct (Ascii.eqb c quoteChar); discriminate.
  - destruct (Ascii.eqb c quoteChar) eqn:Hc, (Ascii.eqb d quoteChar) eqn:Hd;
      intros Heq; inversion Heq; subst;
      rewrite ?Ascii.eqb_refl in *; try discriminate.
    + apply Ascii.eqb_eq in Hc. apply Ascii.eqb_eq in Hd. subst.
      f_equal. by apply IH.
    + f_equal. by apply IH.
Qed.

Lemma length_append (s t : string) :
  String.length (s +:+ t) = (String.length s + String.length t)%nat.
Proof. induction s as [|c s IH]; simpl; [done | by rewrite IH]. Qed.

Lemma append_inj_r (s t u : string) : s +:+ u = t +:+ u → s = t.
Proof.
  intros Heq.
  assert (Hlen : String.length s = String.length t).
  { apply (f_equal String.length) in Heq. rewrite !length_append in Heq. lia. }
  revert t Heq Hlen. induction s as [|c s IH]; intros [|d t] Heq Hlen;
    simpl in *; try done.
  injection Heq as -> Heq. f_equal. apply IH; [done|lia].
Qed.

(** X11. Two different texts are never written as the same field, and an
    absent field is written as the empty text is. *)
Theorem escapeCsvField_injective (f1 f2 : string) :
  (escapeCsvField (Some f1) = escapeCsvField (Some f2) ↔ f1 = f2)
  ∧ escapeCsvField None = escapeCsvField (Some "").
Proof.
  split; [|reflexivity]. split; [|by intros ->].
  destruct (needsQuotes f1) eqn:H1, (needsQuotes f2) eqn:H2.
  - rewrite !escapeCsvField_quoted by done. intros Heq. injection Heq as Heq.
    apply append_inj_r in Heq. by apply doubleQuotes_inj.
  - rewrite escapeCsvField_quoted, escapeCsvField_plain by done. intros <-.
    unfold needsQuotes in H2. simpl in H2. by rewrite orb_true_r in H2.
  - rewrite escapeCsvField_plain, escapeCsvField_quoted by done. intros ->.
    unfold needsQuotes in H1. simpl in H1. by rewrite orb_true_r in H1.
  - by rewrite !escapeCsvField_plain.
Qed.

(** ** PDF export: all outcomes *)

Lemma mapEff_cons {A B} (f : A → Eff B) (x : A) (l : list A) (w : World) :
  mapEff f (x :: l) w =
    match f x w with
    | (Normal y, w') =>
        match mapEff f l w' with
        | (Normal ys, w'') => (Normal (y :: ys), w'')
        | (Throw e, w'') => (Throw e, w'')
        end
    | (Throw e, w') => (Throw e, w')
    end.
Proof.
  cbn [mapEff]. unfold mbind, Eff_bind. destruct (f x w) as [[y|e] w']; [|done].
  by destruct (mapEff f l w') as [[ys|e] w''].
Qed.

Section PdfOutcomes.
Context `{JsRuntime} `{Network}.

Lemma pdfRow_valid (o : Order) (d : string) (w : World) :
  toISODate (date o) = Some d → pdfRow o w = (Normal (pdfCells o), w).
Proof. intros Hd. unfold pdfRow, pdfCells. by rewrite Hd. Qed.

Lemma pdfRow_invalid (o : Order) (w : World) :
  toISODate (date o) = None →
  pdfRow o w = (Throw "RangeError: Invalid time value", w).
Proof. intros Hd. unfold pdfRow. by rewrite Hd. Qed.

Lemma mapEff_pdfRow_cases (rows : list Order) (w : World) :
  (Forall (λ o, is_Some (toISODate (date o))) rows
   ∧ mapEff pdfRow rows w = (Normal (map pdfCells rows), w))
  ∨ (Exists (λ o, toISODate (date o) = None) rows
     ∧ mapEff pdfRow rows w = (Throw "RangeError: Invalid time value", w)).
Proof.
  induction rows as [|o rows IH].
  - left. split; [constructor|done].
  - rewrite mapEff_cons. destruct (toISODate (date o)) as [d|] eqn:Hd.
    + rewrite (pdfRow_valid o d w Hd).
      destruct IH as [[Hall ->]|[Hex ->]].
      * left. split; [constructor; [by eexists|done]|done].
      * right. split; [by apply Exists_cons_tl|done].
    + rewrite (pdfRow_invalid o w Hd). right. split; [by apply Exists_cons_hd|done].
Qed.

End PdfOutcomes.

Section PdfHandler.
Context `{JsRuntime} `{Network}.

Lemma fetchFontBase64_result :
  ∃ r : Completion string,
    (∀ w, fetchFontBase64 w = (r, w))
    ∧ (FontFetchFails (fetch fontUrl) → ∃ e, r = Throw e)
    ∧ (∀ txt buf, fetch fontUrl = FetchResponse true txt (Normal buf) →
         r = Normal (btoa buf))
    ∧ (∀ font, r = Normal font → ∃ txt buf,
         fetch fontUrl = FetchResponse true txt (Normal buf) ∧ font = btoa buf).
Proof.
  unfold fetchFontBase64. destruct (fetch fontUrl) as [reason|[|] txt [buf|e]].
  - exists (Throw reason). repeat split; try done. by eexists.
  - exists (Normal (btoa buf)). repeat split; try done.
    + intros Hf. inversion Hf.
    + intros ?? [= _ <-]. done.
    + intros font [= <-]. by eexists _, _.
  - exists (Throw e). repeat split; try done. by eexists.
  - eexists (Throw _). repeat split; try done. by eexists.
  - eexists (Throw _). repeat split; try done. by eexists.
Qed.

(** The run of [handleExportPDF] on a projection with rows, by the
    result of the font download and of the rows. *)
Lemma handleExportPDF_run (st : AppState) (r : Completion string)
    (b : Completion (list (list string))) :
  filteredAndSortedOrders st ≠ [] →
  (∀ w, fetchFontBase64 w = (r, w)) →
  (∀ w, mapEff pdfRow (filteredAndSortedOrders st) w = (b, w)) →
  let preparing := {| message := "جاري تحضير ملف PDF..."; toastType := success |} in
  let saved := {| message := "تم تصدير PDF بنجاح."; toastType := success |} in
  let failed :=
    {| message := "حدث خطأ أثناء تحميل الخط أو تصدير PDF."; toastType := error |} in
  runHandler handleExportPDF st =
    match r, b with
    | Normal font, Normal body =>
        (Normal (),
         {| app := setToast (Some saved) st;
            trace := [ShowToast preparing;
                      SavePdf ("تقرير_الأوردرات_" +:+ todayISO +:+ ".pdf")
                        {| vfsFont := font; titleText := "تقرير الأوردرات";
                           tableHead := pdfHead; tableBody := body |};
                      ShowToast saved] |})
    | _, _ =>
        (Normal (),
         {| app := setToast (Some failed) st;
            trace := [ShowToast preparing; ConsoleError "Error exporting PDF:";
                      ShowToast failed] |})
    end.
Proof.
  intros Hrows Hr Hb. cbv zeta. unfold runHandler, handleExportPDF. cbn [app].
  destruct (filteredAndSortedOrders st) as [|o rows] eqn:Hl; [done|].
  cbn [length Nat.eqb].
  unfold mbind, Eff_bind, tryCatch, showToast, mbind, Eff_bind, emit, setState.
  cbn [app trace]. rewrite Hr. destruct r as [font|e]; [|reflexivity].
  rewrite Hb. destruct b as [body|e]; reflexivity.
Qed.

End PdfHandler.

(** X12. [handleExportPDF] completes normally whatever the network
    answers and whatever the dates are; it changes nothing of the state
    but the message.  A document is saved only together with the success
    message, and then the projection has rows, every date is valid and
    the table of the document has one row per order of the projection,
    in its order; in every other case the last message is an error and
    nothing is saved. *)
Theorem handleExportPDF_outcomes `{JsRuntime} `{Network} (st : AppState) :
  let '(completion, w) := runHandler handleExportPDF st in
  completion = Normal ()
  ∧ ∃ t, app w = setToast (Some t) st
    ∧ ((toastType t = error ∧ savedDocuments (trace w) = [])
       ∨ (toastType t = success
          ∧ filteredAndSortedOrders st ≠ []
          ∧ Forall (λ o, is_Some (toISODate (date o))) (filteredAndSortedOrders st)
          ∧ ∃ filename font,
              savedDocuments (trace w) =
                [(filename,
                  {| vfsFont := font; titleText := "تقرير الأوردرات";
                     tableHead := pdfHead;
                     tableBody := map pdfCells (filteredAndSortedOrders st) |})])).
Proof.
  destruct (decide (filteredAndSortedOrders st = [])) as [Hempty|Hrows].
  - unfold runHandler, handleExportPDF. cbn [app]. rewrite Hempty.
    split; [done|]. eexists. split; [done|]. by left.
  - destruct fetchFontBase64_result as (r & Hr & _).
    assert (Hb : ∃ b, (∀ w, mapEff pdfRow (filteredAndSortedOrders st) w = (b, w))
                      ∧ ((b = Normal (map pdfCells (filteredAndSortedOrders st))
                          ∧ Forall (λ o, is_Some (toISODate (date o)))
                                   (filteredAndSortedOrders st))
                         ∨ ∃ e, b = Throw e)).
    { destruct (mapEff_pdfRow_cases (filteredAndSortedOrders st)
                  {| app := st; trace := [] |}) as [[Hall _]|[Hex _]].
      - exists (Normal (map pdfCells (filteredAndSortedOrders st))). split; [|by left].
        intros w. by destruct (mapEff_pdfRow_cases (filteredAndSortedOrders st) w)
          as [[_ ?]|[Hex _]]; [|apply Exists_exists in Hex as (o & Ho & Hn);
               rewrite Forall_forall in Hall; destruct (Hall o Ho); congruence].
      - eexists (Throw _). split; [|by right; eexists].
        intros w. destruct (mapEff_pdfRow_cases (filteredAndSortedOrders st) w)
          as [[Hall _]|[_ ?]]; [|done].
        apply Exists_exists in Hex as (o & Ho & Hn).
        rewrite Forall_forall in Hall. destruct (Hall o Ho). congruence. }
    destruct Hb as (b & Hb & Hcase).
    rewrite (handleExportPDF_run st r b Hrows Hr Hb).
    destruct r as [font|e]; [destruct Hcase as [[-> Hall]|[e ->]]|].
    + split; [done|]. eexists. split; [done|]. right.
      split; [done|]. split; [done|]. split; [done|]. by eexists _, _.
    + split; [done|]. eexists. split; [done|]. by left.
    + destruct b; (split; [done|]); eexists; (split; [done|]); by left.
Qed.

Lemma mapEff_pdfRow_valid `{JsRuntime} (rows : list Order) (w : World) :
  Forall (λ o, is_Some (toISODate (date o))) rows →
  mapEff pdfRow rows w = (Normal (map pdfCells rows), w).
Proof.
  intros Hall. destruct (mapEff_pdfRow_cases rows w) as [[_ ?]|[Hex _]]; [done|].
  apply Exists_exists in Hex as (o & Ho & Hn).
  rewrite Forall_forall in Hall. destruct (Hall o Ho). congruence.
Qed.

Lemma mapEff_pdfRow_invalid `{JsRuntime} (rows : list Order) (o : Order) (w : World) :
  o ∈ rows → toISODate (date o) = None →
  mapEff pdfRow rows w = (Throw "RangeError: Invalid time value", w).
Proof.
  intros Ho Hn. destruct (mapEff_pdfRow_cases rows w) as [[Hall _]|[_ ?]]; [|done].
  rewrite Forall_forall in Hall. destruct (Hall o Ho). congruence.
Qed.

(** X13. When the projection has rows, the font arrives and every date
    is valid, [handleExportPDF] shows the progress message, saves one
    document and shows the success message.  The table of the document
    has the rows of the projection, in its order; its head is the head
    of the CSV file read from the right, and a row holds, read from the
    right, the type, name, status and creator that the CSV line holds. *)
Theorem handleExportPDF_success `{JsRuntime} `{Network}
    (st : AppState) (txt buf : string) :
  filteredAndSortedOrders st ≠ [] →
  fetch fontUrl = FetchResponse true txt (Normal buf) →
  Forall (λ o, is_Some (toISODate (date o))) (filteredAndSortedOrders st) →
  let preparing := {| message := "جاري تحضير ملف PDF..."; toastType := success |} in
  let saved := {| message := "تم تصدير PDF بنجاح."; toastType := success |} in
  runHandler handleExportPDF st =
    (Normal (),
     {| app := setToast (Some saved) st;
        trace := [ShowToast preparing;
                  SavePdf ("تقرير_الأوردرات_" +:+ todayISO +:+ ".pdf")
                    {| vfsFont := btoa buf; titleText := "تقرير الأوردرات";
                       tableHead := pdfHead;
                       tableBody := map pdfCells (filteredAndSortedOrders st) |};
                  ShowToast saved] |})
  ∧ pdfHead = [reverse csvHeaders]
  ∧ (∀ o, take 2 (reverse (pdfCells o)) = take 2 (csvFields o)
          ∧ drop 4 (reverse (pdfCells o)) = drop 4 (csvFields o)
          ∧ reverse (pdfCells o) !! 2%nat = Some (orElse (ref o) "N/A")
          ∧ (∀ d, toISODate (date o) = Some d → reverse (pdfCells o) !! 3%nat = Some d)).
Proof.
  intros Hrows Hfetch Hvalid. cbv zeta.
  destruct fetchFontBase64_result as (r & Hr & _ & Hok & _).
  specialize (Hok txt buf Hfetch). subst r.
  split; [|split; [reflexivity|]].
  - rewrite (handleExportPDF_run st (Normal (btoa buf))
               (Normal (map pdfCells (filteredAndSortedOrders st))) Hrows Hr); [done|].
    intros w. by apply mapEff_pdfRow_valid.
  - intros o. repeat split; try reflexivity.
    intros d Hd. unfold pdfCells. rewrite Hd. reflexivity.
Qed.

(** X13 on the page with two orders, the font server answering. *)
Lemma handleExportPDF_success_witness :
  savedDocuments
    (trace (@runHandler unit (@handleExportPDF exampleRuntime workingNetwork)
              partialSelectionState).2)
  = [("تقرير_الأوردرات_2024-03-15.pdf",
      {| vfsFont := "font"; titleText := "تقرير الأوردرات"; tableHead := pdfHead;
         tableBody :=
           map (@pdfCells exampleRuntime)
             (@filteredAndSortedOrders exampleRuntime partialSelectionState) |})].
Proof.
  rewrite (proj1 (@handleExportPDF_success exampleRuntime workingNetwork
                    partialSelectionState "OK" "font"
                    ltac:(vm_compute; discriminate) eq_refl
                    ltac:(apply (bool_decide_unpack _); vm_compute; exact I))).
  reflexivity.
Defined.

(** X14. One order in the projection with a date that [toISOString]
    refuses makes the whole PDF export fail, whatever the network
    answers: the error message is shown and no document is saved.  The
    CSV export of the same page completes, with a line for that order
    too: [handleExportCSV] has no failing step and no guard, and on an
    empty projection it writes the mark and the header line alone. *)
Theorem invalid_date_blocks_pdf_only `{JsRuntime} `{Network} (st : AppState) (o : Order) :
  o ∈ filteredAndSortedOrders st →
  toISODate (date o) = None →
  let preparing := {| message := "جاري تحضير ملف PDF..."; toastType := success |} in
  let failed :=
    {| message := "حدث خطأ أثناء تحميل الخط أو تصدير PDF."; toastType := error |} in
  let exported := {| message := "تم تصدير CSV بنجاح."; toastType := success |} in
  runHandler handleExportPDF st =
    (Normal (),
     {| app := setToast (Some failed) st;
        trace := [ShowToast preparing; ConsoleError "Error exporting PDF:";
                  ShowToast failed] |})
  ∧ runHandler handleExportCSV st =
    (Normal (),
     {| app := setToast (Some exported) st;
        trace := [Download ("تقرير_الأوردرات_" +:+ todayISO +:+ ".csv")
                    (csvContent (filteredAndSortedOrders st));
                  ShowToast exported] |})
  ∧ csvRow o ∈ map csvRow (filteredAndSortedOrders st)
  ∧ csvContent [] = bom +:+ join "," csvHeaders +:+ crlf.
Proof.
  intros Ho Hn. cbv zeta.
  assert (Hrows : filteredAndSortedOrders st ≠ []).
  { intros Hempty. rewrite Hempty in Ho. by apply elem_of_nil in Ho. }
  destruct fetchFontBase64_result as (r & Hr & _).
  split; [|split; [reflexivity|split; [|reflexivity]]].
  - rewrite (handleExportPDF_run st r (Throw "RangeError: Invalid time value") Hrows Hr).
    + by destruct r.
    + intros w. by eapply mapEff_pdfRow_invalid.
  - by apply list_elem_of_fmap_2.
Qed.

(** X14 on a page with the date [soon] between two valid dates. *)
Lemma invalid_date_blocks_pdf_only_witness :
  savedDocuments
    (trace (@runHandler unit (@handleExportPDF exampleRuntime workingNetwork)
              invalidDateState).2) = []
  ∧ ∃ file content,
      trace (@runHandler unit (@handleExportCSV exampleRuntime) invalidDateState).2
      = [Download file content;
         ShowToast {| message := "تم تصدير CSV بنجاح."; toastType := success |}].
Proof.
  pose proof (@invalid_date_blocks_pdf_only exampleRuntime workingNetwork invalidDateState
                (mkOrder "v" "Vera" (Some "3") "soon" expense pending)
                ltac:(apply list_elem_of_In; vm_compute; auto) eq_refl)
    as (Hpdf & Hcsv & _).
  rewrite Hpdf, Hcsv. split; [reflexivity|]. by eexists _, _.
Defined.

(** ** Summary request *)

Lemma join_includes (sep x : string) (l : list string) :
  x ∈ l → ∃ pre post, join sep l = pre +:+ x +:+ post.
Proof.
  induction l as [|y l IH]; intros Hx; [by apply elem_of_nil in Hx|].
  apply elem_of_cons in Hx as [->|Hx].
  - destruct l as [|z l].
    + exists "", "". simpl. by rewrite append_nil_r.
    + by exists "", (sep +:+ join sep (z :: l)).
  - destruct (IH Hx) as (pre & post & Hj). destruct l as [|z l]; [by apply elem_of_nil in Hx|].
    exists (y +:+ sep +:+ pre), post.
    change (join sep (y :: z :: l)) with (y +:+ sep +:+ join sep (z :: l)).
    by rewrite Hj, !append_assoc.
Qed.

(** X15. [generateOrderSummary] sends at most one prompt.  Without a
    key it answers with the key message and sends nothing, also for an
    empty list; with a key and an empty list it answers that there is
    nothing to summarise and sends nothing.  With a key and orders it
    sends one prompt, which holds the line of every order, and answers
    with the text of the model, or, when the model fails, with the
    general message, or with the key message when the error names
    [API_KEY].  A click on the button while a request is running changes
    nothing and sends nothing; otherwise the request is made for the
    projection, and afterwards the box holds the answer and is not
    loading. *)
Theorem generateOrderSummary_outcomes `{JsRuntime} `{SummaryService}
    (orders : list Order) (st : AppState) (ss : SummaryState) :
  let keyMessage := "خطأ: مفتاح Gemini API غير مهيأ. يرجى التأكد من إعداده بشكل صحيح." in
  let generalMessage := "عذراً، حدث خطأ أثناء إنشاء الملخص. يرجى المحاولة مرة أخرى." in
  (length (generateOrderSummary orders).2 ≤ 1)%nat
  ∧ (truthy apiKeyEnv = false → generateOrderSummary orders = (keyMessage, []))
  ∧ (truthy apiKeyEnv = true → orders = [] →
     generateOrderSummary orders = ("لا توجد أوردرات لتلخيصها.", []))
  ∧ (truthy apiKeyEnv = true → orders ≠ [] →
     (generateOrderSummary orders).2 = [summaryPrompt orders]
     ∧ (∀ o, o ∈ orders → includes (summaryPrompt orders) (summaryLine o) = true)
     ∧ (∀ text, generateContent "gemini-2.5-flash" (summaryPrompt orders) = Normal text →
          (generateOrderSummary orders).1 = text)
     ∧ (∀ e, generateContent "gemini-2.5-flash" (summaryPrompt orders) = Throw e →
          (generateOrderSummary orders).1
          = if includes e "API_KEY" then keyMessage else generalMessage))
  ∧ (isSummaryLoading ss = true → handleGenerateSummary st ss = (ss, []))
  ∧ (isSummaryLoading ss = false →
     handleGenerateSummary st ss
     = ({| summary := (generateOrderSummary (filteredAndSortedOrders st)).1;
           isSummaryLoading := false |},
        (generateOrderSummary (filteredAndSortedOrders st)).2)
     ∧ summaryClicked st (summaryClicked st ss).1 = ((summaryClicked st ss).1, None)).
Proof.
  cbv zeta. unfold generateOrderSummary, getApiKey.
  split; [|split; [|split; [|split; [|split]]]].
  - destruct (truthy apiKeyEnv); [|simpl; lia].
    destruct (length orders =? 0)%nat; [simpl; lia|].
    destruct (generateContent _ _); simpl; lia.
  - by intros ->.
  - by intros -> ->.
  - intros -> Hne.
    assert (Hlen : (length orders =? 0)%nat = false).
    { destruct orders; [done|reflexivity]. }
    rewrite Hlen. split; [by destruct (generateContent _ _)|]. split; [|split].
    + intros o Ho. apply includes_spec. unfold summaryPrompt.
      destruct (join_includes newline (summaryLine o) (map summaryLine orders))
        as (pre & post & ->); [by apply list_elem_of_fmap_2|].
      exists (promptBefore +:+ pre), (post +:+ promptAfter).
      by rewrite !append_assoc.
    + by intros text ->.
    + by intros e ->.
  - intros Hl. unfold handleGenerateSummary, summaryClicked. by rewrite Hl.
  - intros Hl. unfold handleGenerateSummary, summaryClicked. rewrite Hl. cbn [fst snd].
    unfold generateOrderSummary, getApiKey, summaryResolved. split; [|done].
    destruct (truthy apiKeyEnv); [|done].
    destruct (length (filteredAndSortedOrders st) =? 0)%nat; [done|].
    by destruct (generateContent _ _).
Qed.

(** ** Accounts *)

Lemma mapFirebaseError_truthy (code : string) :
  truthy (Some (mapFirebaseError code)) = true.
Proof.
  unfold mapFirebaseError.
  repeat (match goal with |- context [if ?b then _ else _] => destruct b end);
    reflexivity.
Qed.

Lemma orElse_mapFirebaseError (code : string) :
  orElse (Some (mapFirebaseError code)) "" = mapFirebaseError code.
Proof.
  pose proof (mapFirebaseError_truthy code) as Ht. simpl in *.
  apply negb_true_iff in Ht. by rewrite Ht.
Qed.

(** X16. [registerWithEmail] writes the user document only after the
    account exists, once, with the role [admin] exactly when the typed
    address is the one of the main administrator, and [guest] otherwise.
    [handleRegister] then stores the success message in the hook [toast]
    and switches to the login view when both steps succeeded; when the
    account is refused, or when the account exists but the write of the
    document fails, it stores the message of the error code as an error
    and keeps the view.  It changes nothing of the state but the hook
    [toast], and it always stores a message there.  The stored message is
    not on the screen while nobody is signed in, since [App] then returns
    the [AuthScreen] alone: a registration that fails shows nothing.  The
    message comes on the screen when the listener of the sign-in state
    delivers a user. *)
Theorem handleRegister_outcomes `{AuthService}
    (address pass : string) (st : AppState) (isLoginView : bool) :
  let role := if String.eqb address SUPER_ADMIN_EMAIL then admin else guest in
  let created :=
    {| message := "تم إنشاء الحساب بنجاح! يمكنك الآن تسجيل الدخول.";
       toastType := success |} in
  (role = admin ↔ address = SUPER_ADMIN_EMAIL)
  ∧ (∀ code, createUserWithEmailAndPassword address pass = Throw code →
       handleRegister address pass st isLoginView
       = (setToast (Some {| message := mapFirebaseError code; toastType := error |}) st,
          isLoginView, [CreateUser address]))
  ∧ (∀ userId userAddress,
       createUserWithEmailAndPassword address pass = Normal (userId, userAddress) →
       (setUserDoc userId userAddress role = Normal () →
          handleRegister address pass st isLoginView
          = (setToast (Some created) st, true,
             [CreateUser address; SetUserDoc userId userAddress role]))
       ∧ (∀ code, setUserDoc userId userAddress role = Throw code →
            handleRegister address pass st isLoginView
            = (setToast (Some {| message := mapFirebaseError code; toastType := error |}) st,
               isLoginView,
               [CreateUser address; SetUserDoc userId userAddress role])))
  ∧ (∃ t, (handleRegister address pass st isLoginView).1.1 = setToast (Some t) st)
  ∧ (∀ isLoading, currentUser st = None →
       renderedToast isLoading (handleRegister address pass st isLoginView).1.1 = None)
  ∧ (∀ u,
       let '(signedIn, isLoading) :=
         onAuthStateChanged (Some u) (handleRegister address pass st isLoginView).1.1 in
       renderedToast isLoading signedIn
       = toast (handleRegister address pass st isLoginView).1.1).
Proof.
  cbv zeta.
  assert (Hstored : ∃ t, (handleRegister address pass st isLoginView).1.1
                         = setToast (Some t) st).
  { unfold handleRegister. destruct (registerWithEmail address pass) as [err calls].
    destruct (truthy err); by eexists. }
  split; [|split; [|split; [|split; [|split]]]].
  - destruct (String.eqb address SUPER_ADMIN_EMAIL) eqn:He.
    + apply String.eqb_eq in He. by split.
    + apply String.eqb_neq in He. split; [done|]. intros ?. done.
  - intros code Hc. unfold handleRegister, registerWithEmail. rewrite Hc.
    rewrite mapFirebaseError_truthy. by rewrite orElse_mapFirebaseError.
  - intros userId userAddress Hc. split.
    + intros Hs. unfold handleRegister, registerWithEmail. rewrite Hc, Hs. reflexivity.
    + intros code Hs. unfold handleRegister, registerWithEmail. rewrite Hc, Hs.
      rewrite mapFirebaseError_truthy. by rewrite orElse_mapFirebaseError.
  - exact Hstored.
  - intros isLoading Hu. destruct Hstored as [t ->].
    unfold renderedToast. cbn. rewrite Hu. by destruct isLoading.
  - intros u. destruct Hstored as [t ->]. reflexivity.
Qed.

(** X17. [handleLogin] stores the welcome message in the hook [toast]
    when the sign-in succeeds and otherwise the message of the error
    code, as an error.  An unknown user, a wrong password and an invalid
    credential give the same message, so the message does not tell
    whether the address has an account; a code outside the listed ones
    gives the general message.  The message of a code is never empty.
    The stored message is not on the screen while nobody is signed in,
    since [App] then returns the [AuthScreen] alone: a sign-in that fails
    shows nothing.  The message comes on the screen when the listener of
    the sign-in state delivers a user. *)
Theorem handleLogin_outcomes `{AuthService} (address pass : string) (st : AppState) :
  let credentials := "البريد الإلكتروني أو كلمة المرور غير صحيحة." in
  (signInWithEmailAndPassword address pass = Normal () →
     handleLogin address pass st
     = (setToast (Some {| message := "مرحباً بعودتك!"; toastType := success |}) st,
        [SignIn address]))
  ∧ (∀ code, signInWithEmailAndPassword address pass = Throw code →
       handleLogin address pass st
       = (setToast (Some {| message := mapFirebaseError code; toastType := error |}) st,
          [SignIn address]))
  ∧ mapFirebaseError "auth/user-not-found" = credentials
  ∧ mapFirebaseError "auth/wrong-password" = credentials
  ∧ mapFirebaseError "auth/invalid-credential" = credentials
  ∧ (∀ code,
       code ∉ ["auth/email-already-in-use"; "auth/invalid-email"; "auth/weak-password";
               "auth/user-not-found"; "auth/wrong-password"; "auth/invalid-credential"] →
       mapFirebaseError code = "حدث خطأ غير متوقع. يرجى المحاولة مرة أخرى.")
  ∧ (∀ code, mapFirebaseError code ≠ "")
  ∧ (∃ t, (handleLogin address pass st).1 = setToast (Some t) st)
  ∧ (∀ isLoading, currentUser st = None →
       renderedToast isLoading (handleLogin address pass st).1 = None)
  ∧ (∀ u,
       let '(signedIn, isLoading) :=
         onAuthStateChanged (Some u) (handleLogin address pass st).1 in
       renderedToast isLoading signedIn = toast (handleLogin address pass st).1).
Proof.
  cbv zeta.
  assert (Hstored : ∃ t, (handleLogin address pass st).1 = setToast (Some t) st).
  { unfold handleLogin. destruct (loginWithEmail address pass) as [err calls].
    destruct (truthy err); by eexists. }
  split; [|split; [|split; [|split; [|split; [|split; [|split; [|split; [|split]]]]]]]];
    try reflexivity.
  - intros Hs. unfold handleLogin, loginWithEmail. by rewrite Hs.
  - intros code Hs. unfold handleLogin, loginWithEmail. rewrite Hs.
    rewrite mapFirebaseError_truthy. by rewrite orElse_mapFirebaseError.
  - intros code Hc. unfold mapFirebaseError.
    rewrite !not_elem_of_cons in Hc. destruct Hc as (H1 & H2 & H3 & H4 & H5 & H6 & _).
    apply String.eqb_neq in H1, H2, H3, H4, H5, H6.
    by rewrite H1, H2, H3, H4, H5, H6.
  - intros code He. pose proof (mapFirebaseError_truthy code) as Ht.
    rewrite He in Ht. discriminate.
  - exact Hstored.
  - intros isLoading Hu. destruct Hstored as [t ->].
    unfold renderedToast. cbn. rewrite Hu. by destruct isLoading.
Qed.

(** ** New orders *)

(** X18. The form sends nothing and keeps its fields when the name is
    empty.  With a name and a signed-in user it hands one document to the
    store: status [pending], the creator the address of the user, the
    reference present even when the field was left blank; it shows the
    success message and clears the name and the reference, sets the date
    to today and keeps the type.  Once the store delivers that document
    as an order, a blank reference shows as [N/A] in the table and as the
    empty field in the CSV file. *)
Theorem handleSubmit_outcomes `{JsRuntime} (form : AddOrderFormState) (st : AppState) :
  let cleared :=
    {| formName := ""; formRef := ""; formType := formType form; formDate := todayISO |} in
  let added := {| message := "تمت إضافة الأوردر بنجاح!"; toastType := success |} in
  (formName form = "" → handleSubmit form st = (form, st, []))
  ∧ (formName form ≠ "" → ∀ u, currentUser st = Some u →
     handleSubmit form st
     = (cleared, setToast (Some added) st,
        [{| newName := formName form; newRef := Some (formRef form);
            newType := formType form; newStatus := pending;
            newDate := formDate form; newAddedBy := email u |}]))
  ∧ (formName form ≠ "" → currentUser st = None →
     handleSubmit form st = (cleared, st, []))
  ∧ (∀ data, data ∈ (handleSubmit form st).2 →
       newStatus data = pending ∧ newName data ≠ "" ∧ is_Some (newRef data)
       ∧ ∀ docId,
           (formRef form = "" →
              tableRefCell (docToOrder docId data) = "N/A"
              ∧ csvFields (docToOrder docId data) !! 2%nat = Some "")
           ∧ name (docToOrder docId data) = formName form
           ∧ type (docToOrder docId data) = formType form).
Proof.
  cbv zeta. unfold handleSubmit, handleAddOrder.
  split; [|split; [|split]].
  - intros ->. reflexivity.
  - intros Hn u Hu. apply String.eqb_neq in Hn. by rewrite Hn, Hu.
  - intros Hn Hu. apply String.eqb_neq in Hn. by rewrite Hn, Hu.
  - intros data. destruct (String.eqb (formName form) "") eqn:Hn;
      [by intros ?%elem_of_nil|].
    apply String.eqb_neq in Hn.
    destruct (currentUser st) as [u|]; [|by intros ?%elem_of_nil].
    cbn [snd]. intros Hd. apply list_elem_of_singleton in Hd. subst data. cbn.
    split; [done|]. split; [done|]. split; [by eexists|].
    intros docId. split; [|done]. intros Hr. unfold tableRefCell, csvFields. cbn.
    rewrite Hr. done.
Qed.

(** ** The further properties on the examples *)

(** X15 without a key, for an empty list, and with a key for the three
    orders. *)
Lemma generateOrderSummary_outcomes_witness :
  @generateOrderSummary exampleRuntime keylessSummaryService []
  = ("خطأ: مفتاح Gemini API غير مهيأ. يرجى التأكد من إعداده بشكل صحيح.", [])
  ∧ (@generateOrderSummary exampleRuntime answeringSummaryService
       (orders threeOrdersState)).1 = "ملخص".
Proof.
  split.
  - exact (proj1 (proj2 (@generateOrderSummary_outcomes exampleRuntime
             keylessSummaryService [] initialState
             {| summary := ""; isSummaryLoading := false |})) eq_refl).
  - pose proof (proj1 (proj2 (proj2 (proj2 (@generateOrderSummary_outcomes exampleRuntime
             answeringSummaryService (orders threeOrdersState) initialState
             {| summary := ""; isSummaryLoading := false |}))))) as Hs.
    cbv zeta in Hs.
    exact (proj1 (proj2 (proj2 (Hs eq_refl ltac:(discriminate)))) "ملخص" eq_refl).
Defined.

(** X16 before anybody has signed in: the address of the main
    administrator is registered, and an address that is taken leaves the
    screen without a message. *)
Lemma handleRegister_outcomes_witness :
  @handleRegister exampleAuthService "admin@example.com" "secret" signedOutState false
  = (setToast (Some {| message := "تم إنشاء الحساب بنجاح! يمكنك الآن تسجيل الدخول.";
                       toastType := success |}) signedOutState,
     true,
     [CreateUser "admin@example.com";
      SetUserDoc "u-admin@example.com" "admin@example.com" admin])
  ∧ renderedToast false
      (@handleRegister exampleAuthService "taken@example.com" "secret"
         signedOutState false).1.1 = None.
Proof.
  split.
  - exact (proj1 (proj1 (proj2 (proj2 (@handleRegister_outcomes exampleAuthService
             "admin@example.com" "secret" signedOutState false)))
             "u-admin@example.com" "admin@example.com" eq_refl) eq_refl).
  - exact (proj1 (proj2 (proj2 (proj2 (proj2 (@handleRegister_outcomes exampleAuthService
             "taken@example.com" "secret" signedOutState false))))) false eq_refl).
Defined.

(** X17 for an address without an account, before anybody has signed
    in: the message is stored and the screen stays without it. *)
Lemma handleLogin_outcomes_witness :
  @handleLogin exampleAuthService "nobody@example.com" "secret" signedOutState
  = (setToast (Some {| message := "البريد الإلكتروني أو كلمة المرور غير صحيحة.";
                       toastType := error |}) signedOutState,
     [SignIn "nobody@example.com"])
  ∧ renderedToast false
      (@handleLogin exampleAuthService "nobody@example.com" "secret" signedOutState).1
    = None.
Proof.
  split.
  - exact (proj1 (proj2 (@handleLogin_outcomes exampleAuthService
             "nobody@example.com" "secret" signedOutState))
             "auth/user-not-found" eq_refl).
  - exact (proj1 (proj2 (proj2 (proj2 (proj2 (proj2 (proj2 (proj2 (proj2
             (@handleLogin_outcomes exampleAuthService
                "nobody@example.com" "secret" signedOutState))))))))) false eq_refl).
Defined.

(** X18 for a form with a blank reference. *)
Lemma handleSubmit_outcomes_witness :
  (@handleSubmit exampleRuntime blankRefForm initialState).2
  = [{| newName := "Nile"; newRef := Some ""; newType := income; newStatus := pending;
        newDate := "2024-03-05"; newAddedBy := "admin@example.com" |}].
Proof.
  exact (f_equal snd (proj1 (proj2 (@handleSubmit_outcomes exampleRuntime blankRefForm
           initialState)) ltac:(discriminate) _ eq_refl)).
Defined.

(** X2 for an option that is not one of the named ones. *)
Lemma sort_option_reorders_only_witness :
  @filteredAndSortedOrders exampleRuntime (setSortOption "newest" threeOrdersState)
  = @filteredAndSortedOrders exampleRuntime (setSortOption "date-desc" threeOrdersState).
Proof.
  apply (proj2 (proj2 (proj2 (@sort_option_reorders_only exampleRuntime
           "newest" "date-asc" threeOrdersState)))); discriminate.
Defined.

(** X5 on the income table with one of its two rows selected: the box
    in the head, not checked before the click, is checked after it. *)
Lemma handleSelectAll_header_box_witness :
  allVisibleSelected (@ordersToSelect exampleRuntime income partialSelectionState)
    (selectedOrders (@handleSelectAll exampleRuntime income partialSelectionState))
  = negb (allVisibleSelected (@ordersToSelect exampleRuntime income partialSelectionState)
            (selectedOrders partialSelectionState)).
Proof.
  apply (proj1 (proj2 (proj2 (@handleSelectAll_header_box exampleRuntime income
           partialSelectionState)))).
  vm_compute. discriminate.
Defined.

(** X8 on the page with one selected order: open, then cancel. *)
Lemma delete_dialog_open_cancel_witness :
  runHandler onCancel (handleDeleteSelected partialSelectionState)
  = (Normal (), {| app := partialSelectionState; trace := [] |}).
Proof.
  exact (proj2 (proj2 (delete_dialog_open_cancel partialSelectionState)) eq_refl).
Defined.
